(** * fc: the dynamic [variant] value, its conversion protocol and the time types

    A shallow embedding of [include/fc/time.hpp] and [include/fc/variant.hpp].

    - 64-bit integers are [Z] with the two's-complement wrap-around written out;
    - doubles are the kernel's binary64 numbers;
    - a C++ function that may throw and that writes through a reference is a
      state transformer [S -> result A * S]: the state holds the referenced
      object together with the store of objects it can reach, and the state
      is kept when an exception propagates (C++ does not roll back);
    - [std::shared_ptr<T>] is an address into a heap of [T] cells, so that the
      identity of a pointee can be told apart from its value. *)

From Stdlib Require Import ZArith Lia.
From Stdlib Require Import Floats.PrimFloat Floats.SpecFloat Floats.FloatOps.
From stdpp Require Import base list strings pretty gmap.

Local Open Scope Z_scope.
Set Warnings "-register-all,-inexact-float".

(** ** Machine integers *)

Definition int64_min : Z := - 2 ^ 63.
Definition int64_max : Z := 2 ^ 63 - 1.
Definition uint64_max : Z := 2 ^ 64 - 1.

Definition int64_range (z : Z) : Prop := int64_min <= z <= int64_max.
Definition uint64_range (z : Z) : Prop := 0 <= z <= uint64_max.

(** Conversion of an integer to [int64_t] / [uint64_t] / [int32_t]. *)
Definition to_int64 (z : Z) : Z := (z + 2 ^ 63) mod 2 ^ 64 - 2 ^ 63.
Definition to_uint64 (z : Z) : Z := z mod 2 ^ 64.
Definition to_int32 (z : Z) : Z := (z + 2 ^ 31) mod 2 ^ 32 - 2 ^ 31.

(** ** [fc/time.hpp] *)

Module Time.

(** [class microseconds]: a signed 64-bit count. *)
Record microseconds : Type := Microseconds { _count : Z }.

(** [explicit microseconds( int64_t c = 0 )] *)
Definition microseconds_ctor (c : Z) : microseconds := Microseconds c.
Definition microseconds_default : microseconds := microseconds_ctor 0.

(** [static microseconds maximum()] returns
    [microseconds(0x7fffffffffffffffll)]. *)
Definition microseconds_maximum : microseconds :=
  microseconds_ctor 0x7fffffffffffffff.

(** [operator +] and [operator +=]: 64-bit addition of the counts. *)
Definition microseconds_add (l r : microseconds) : microseconds :=
  microseconds_ctor (to_int64 (_count l + _count r)).

Definition microseconds_eq (a c : microseconds) : bool := _count a =? _count c.
Definition microseconds_gt (a b : microseconds) : bool := _count a >? _count b.
Definition microseconds_ge (a b : microseconds) : bool := _count a >=? _count b.
Definition microseconds_lt (a b : microseconds) : bool := _count a <? _count b.
Definition microseconds_le (a b : microseconds) : bool := _count a <=? _count b.
Definition count (m : microseconds) : Z := _count m.

(** [seconds( int64_t s )] and [milliseconds( int64_t s )]. *)
Definition seconds (s : Z) : microseconds := microseconds_ctor (to_int64 (s * 1000000)).
Definition milliseconds (s : Z) : microseconds := microseconds_ctor (to_int64 (s * 1000)).

(** [class time_point]: microseconds elapsed since the epoch. *)
Record time_point : Type := TimePoint { elapsed : microseconds }.

(** [explicit time_point( microseconds e = microseconds() )] *)
Definition time_point_ctor (e : microseconds) : time_point := TimePoint e.
Definition time_point_default : time_point := time_point_ctor microseconds_default.

(** [static time_point maximum()] *)
Definition maximum : time_point := time_point_ctor microseconds_maximum.
(** [static time_point (min)()] returns [time_point()]. *)
Definition min : time_point := time_point_default.

Definition time_since_epoch (t : time_point) : microseconds := elapsed t.

Definition gt (a t : time_point) : bool := _count (elapsed a) >? _count (elapsed t).
Definition ge (a t : time_point) : bool := _count (elapsed a) >=? _count (elapsed t).
Definition lt (a t : time_point) : bool := _count (elapsed a) <? _count (elapsed t).
Definition le (a t : time_point) : bool := _count (elapsed a) <=? _count (elapsed t).
Definition eq (a t : time_point) : bool := _count (elapsed a) =? _count (elapsed t).
Definition ne (a t : time_point) : bool := negb (_count (elapsed a) =? _count (elapsed t)).

(** [operator +=], [operator +] and [operator -]. *)
Definition add (t : time_point) (m : microseconds) : time_point :=
  time_point_ctor (microseconds_add (elapsed t) m).
Definition sub (t m : time_point) : microseconds :=
  microseconds_ctor (to_int64 (count (elapsed t) - count (elapsed m))).

(** A [time_point] the program can hold: its counter is an [int64_t]. *)
Definition representable (t : time_point) : Prop := int64_range (_count (elapsed t)).

End Time.

(** ** [fc/variant.hpp]: the value *)

(** [enum type_id] *)
Inductive type_id : Type :=
| null_type | int64_type | uint64_type | double_type
| bool_type | string_type | array_type | object_type.

Definition type_id_value (t : type_id) : Z :=
  match t with
  | null_type => 0 | int64_type => 1 | uint64_type => 2 | double_type => 3
  | bool_type => 4 | string_type => 5 | array_type => 6 | object_type => 7
  end.

#[global] Instance type_id_eq_dec : EqDecision type_id.
Proof. solve_decision. Defined.

(** A [variant] by value: the tag together with the payload the tag selects.
    [variants] is [std::vector<variant>]; a [variant_object] is kept as the
    sequence of its (key, value) entries. *)
Inductive variant : Type :=
| v_null
| v_int64 (i : Z)
| v_uint64 (u : Z)
| v_double (d : float)
| v_bool (b : bool)
| v_string (s : string)
| v_array (a : list variant)
| v_object (o : list (string * variant)).

Definition variants : Type := list variant.
Definition variant_object : Type := list (string * variant).

(** Modelled from the spec: the bodies of [get_type] and of the [is_*] tests
    are not in the header; they read the tag. *)
Definition get_type (v : variant) : type_id :=
  match v with
  | v_null => null_type
  | v_int64 _ => int64_type
  | v_uint64 _ => uint64_type
  | v_double _ => double_type
  | v_bool _ => bool_type
  | v_string _ => string_type
  | v_array _ => array_type
  | v_object _ => object_type
  end.

Definition is_null (v : variant) : bool := bool_decide (get_type v = null_type).
Definition is_string (v : variant) : bool := bool_decide (get_type v = string_type).
Definition is_bool (v : variant) : bool := bool_decide (get_type v = bool_type).
Definition is_int64 (v : variant) : bool := bool_decide (get_type v = int64_type).
Definition is_uint64 (v : variant) : bool := bool_decide (get_type v = uint64_type).
Definition is_double (v : variant) : bool := bool_decide (get_type v = double_type).
Definition is_object (v : variant) : bool := bool_decide (get_type v = object_type).
Definition is_array (v : variant) : bool := bool_decide (get_type v = array_type).
Definition is_numeric (v : variant) : bool :=
  is_int64 v || is_uint64 v || is_double v || is_bool v.

(** ** Exceptions and references *)

Inductive exception : Type :=
| type_mismatch            (* an accessor met a tag it does not accept *)
| invalid_pointer          (* an owning pointer without a pointee *)
| user_exception (code : nat).

Inductive result (A : Type) : Type :=
| returns (a : A)
| throws (e : exception).
Arguments returns {A} a.
Arguments throws {A} e.

(** A computation over a state [S]: the state survives an exception. *)
Definition M (S A : Type) : Type := S -> result A * S.

Definition ret {S A} (a : A) : M S A := fun s => (returns a, s).
Definition throw {S A} (e : exception) : M S A := fun s => (throws e, s).
Definition bind {S A B} (m : M S A) (k : A -> M S B) : M S B :=
  fun s => match m s with
           | (returns a, s') => k a s'
           | (throws e, s') => (throws e, s')
           end.
Definition lift_result {S A} (r : result A) : M S A := fun s => (r, s).

Notation "'let*' x := m 'in' k" := (bind m (fun x => k))
  (at level 10, x name, m at level 200, k at level 200).

Definition succeeded {A} (r : result A) : Prop :=
  match r with returns _ => True | throws _ => False end.


(** ** Accessors of [variant] *)

(** Modelled from the spec: the body of [get_string() const] is not in the
    header (it documents [@pre get_type() == string_type]); the accessor
    requires the exact tag and fails with a type mismatch otherwise. *)
Definition get_string (v : variant) : result string :=
  match v with
  | v_string s => returns s
  | _ => throws type_mismatch
  end.

(** Modelled from the spec: the body of [get_array() const] is not in the
    header (it documents [@throw if get_type() != array_type]). *)
Definition get_array_const (v : variant) : result variants :=
  match v with
  | v_array a => returns a
  | _ => throws type_mismatch
  end.

(** Modelled from the spec: the body of [get_object() const] is not in the
    header (it documents [@throw if get_type() != object_type]). *)
Definition get_object_const (v : variant) : result variant_object :=
  match v with
  | v_object o => returns o
  | _ => throws type_mismatch
  end.

(** Modelled from the spec: the body of the mutable [get_array()] is not in
    the header (it documents [@throw if get_type() != array_type | null_type]);
    on a Null variant it promotes the variant in place to an empty Array. The
    state is the variant the accessor is called on. *)
Definition get_array : M variant variants :=
  fun v => match v with
           | v_array a => (returns a, v)
           | v_null => (returns [], v_array [])
           | _ => (throws type_mismatch, v)
           end.

(** Modelled from the spec: the body of the mutable [get_object()] is not in
    the header (it documents [@throw if get_type() != object_type | null_type]);
    on a Null variant it promotes the variant in place to an empty Object. *)
Definition get_object : M variant variant_object :=
  fun v => match v with
           | v_object o => (returns o, v)
           | v_null => (returns [], v_object [])
           | _ => (throws type_mismatch, v)
           end.

(** *** Doubles *)

(** The integer part of a finite double, rounded toward zero; [None] for an
    infinity or a NaN. *)
Definition double_trunc (d : float) : option Z :=
  match Prim2SF d with
  | S754_zero _ => Some 0
  | S754_finite s m e =>
      let magnitude := match e with
                       | Zneg p => Z.shiftr (Zpos m) (Zpos p)
                       | _ => Z.shiftl (Zpos m) e
                       end in
      Some (if s then - magnitude else magnitude)
  | S754_infinity _ | S754_nan => None
  end.

(** The double nearest to an integer (ties to even). *)
Definition double_of_Z (z : Z) : float := SF2Prim (binary_normalize prec emax z 0 false).

Section Coercions.

(** What the spec leaves open: the answer of a coercion on a kind that is not
    numeric, and the conversion of a double that has no integer of the target
    width (undefined in C++). *)
Variable as_int64_other : variant -> result Z.
Variable as_uint64_other : variant -> result Z.
Variable as_bool_other : variant -> result bool.
Variable as_double_other : variant -> result float.
Variable double_to_int64_undefined : float -> Z.
Variable double_to_uint64_undefined : float -> Z.

(** [(int64_t) d] *)
Definition double_to_int64 (d : float) : Z :=
  match double_trunc d with
  | Some z => if bool_decide (int64_range z) then z else double_to_int64_undefined d
  | None => double_to_int64_undefined d
  end.

(** [(uint64_t) d] *)
Definition double_to_uint64 (d : float) : Z :=
  match double_trunc d with
  | Some z => if bool_decide (uint64_range z) then z else double_to_uint64_undefined d
  | None => double_to_uint64_undefined d
  end.

(** Modelled from the spec: the body of [as_int64() const] is not in the
    header; it coerces across the numeric kinds, a Double by truncation. *)
Definition as_int64 (v : variant) : result Z :=
  match v with
  | v_int64 i => returns i
  | v_uint64 u => returns (to_int64 u)
  | v_double d => returns (double_to_int64 d)
  | v_bool b => returns (if b then 1 else 0)
  | _ => as_int64_other v
  end.

(** Modelled from the spec: the body of [as_uint64() const] is not in the
    header; it coerces across the numeric kinds, and reinterprets the bits of
    a negative Int64. *)
Definition as_uint64 (v : variant) : result Z :=
  match v with
  | v_int64 i => returns (to_uint64 i)
  | v_uint64 u => returns u
  | v_double d => returns (double_to_uint64 d)
  | v_bool b => returns (if b then 1 else 0)
  | _ => as_uint64_other v
  end.

(** Modelled from the spec: the body of [as_bool() const] is not in the
    header; it coerces across the numeric kinds. *)
Definition as_bool (v : variant) : result bool :=
  match v with
  | v_int64 i => returns (negb (i =? 0))
  | v_uint64 u => returns (negb (u =? 0))
  | v_double d => returns (negb (PrimFloat.eqb d 0%float))
  | v_bool b => returns b
  | _ => as_bool_other v
  end.

(** Modelled from the spec: the body of [as_double() const] is not in the
    header; it coerces across the numeric kinds. *)
Definition as_double (v : variant) : result float :=
  match v with
  | v_int64 i => returns (double_of_Z i)
  | v_uint64 u => returns (double_of_Z u)
  | v_double d => returns d
  | v_bool b => returns (if b then 1%float else 0%float)
  | _ => as_double_other v
  end.

End Coercions.

Section Rendering.

(** What the spec leaves open: the text of Null, of a boolean and of a
    double. *)
Variable render_null : string.
Variable render_bool : bool -> string.
Variable render_double : float -> string.

(** Modelled from the spec: the body of [as_string() const] is not in the
    header (it documents [@throw if get_type() == array_type | get_type() ==
    object_type]); it renders a numeric, boolean or null value as text, an
    integer in decimal. *)
Definition as_string (v : variant) : result string :=
  match v with
  | v_null => returns render_null
  | v_int64 i => returns (pretty i)
  | v_uint64 u => returns (pretty u)
  | v_double d => returns (render_double d)
  | v_bool b => returns (render_bool b)
  | v_string s => returns s
  | v_array _ | v_object _ => throws type_mismatch
  end.

End Rendering.

(** ** The conversion protocol

    A type [T] takes part through [void to_variant( const T&, variant& )] and
    [void from_variant( const variant&, T& )]. Both write through their second
    argument: here they are computations whose state pairs the referenced
    object with the store [Σ] of the objects [T]'s conversions can reach. *)

(** Modelled from the spec: the bodies of the typed constructors and of the
    assignment operators are not in the header. [variant()] and
    [variant( nullptr_t )] are Null, a sequence of variants is an Array, and
    after [vo = x] the destination holds the assigned value. *)
Definition variant_nullptr : variant := v_null.

(** The variant read from storage cleared by [memset( this, 0, sizeof( *this ) )]:
    its tag is [null_type = 0]. *)
Definition variant_zeroed : variant := v_null.

Section Generic.
Context {Σ T : Type}.

(** [T()] *)
Variable T_default : T.
Variable to_variant_T : T -> M (variant * Σ) unit.
Variable from_variant_T : variant -> M (T * Σ) unit.

(** [template<typename T> variant::variant( const T& val )]:
    [memset( this, 0, sizeof( *this ) ); to_variant( val, *this );] *)
Definition variant_from (val : T) : M Σ variant :=
  fun σ =>
    let '(r, (this, σ')) := to_variant_T val (variant_zeroed, σ) in
    (match r with returns _ => returns this | throws e => throws e end, σ').

(** [template<typename T> T variant::as() const]:
    [T tmp; from_variant( *this, tmp ); return tmp;] *)
Definition as_ (this : variant) : M Σ T :=
  fun σ =>
    let '(r, (tmp, σ')) := from_variant_T this (T_default, σ) in
    (match r with returns _ => returns tmp | throws e => throws e end, σ').

End Generic.

(** *** The container overloads

    The overloads for [std::vector<T>], [std::unordered_set<T>] and
    [std::set<T>] run the same two loops; they differ in how the destination
    takes an element ([push_back] or [insert]). *)

Section Containers.
Context {Σ T C : Type}.
Variable T_default : T.
(** [variant( x )] for an [x] of type [T], by whichever constructor overload
    resolution selects for [T]. *)
Variable variant_T : T -> M Σ variant.
Variable from_variant_T : variant -> M (T * Σ) unit.
(** [tmp.push_back( x )] or [vo.insert( x )] *)
Variable add : T -> C -> C.

(** [for( ...; ++i ) vars[i] = variant( x );] over the elements [t] that are
    left, [i] being the index of the first of them. *)
Fixpoint to_variant_loop (t : list T) (i : nat) (vars : variants) : M Σ variants :=
  match t with
  | [] => ret vars
  | x :: t' => let* v := variant_T x in to_variant_loop t' (S i) (<[i:=v]> vars)
  end.

(** [std::vector<variant> vars( t.size() );] the loop; [v = vars;] *)
Definition to_variant_container (t : list T) : M (variant * Σ) unit :=
  fun '(v, σ) =>
    match to_variant_loop t 0 (replicate (length t) v_null) σ with
    | (returns vars, σ') => (returns tt, (v_array vars, σ'))
    | (throws e, σ') => (throws e, (v, σ'))
    end.

(** [for( auto itr = vars.begin(); itr != vars.end(); ++itr )
       tmp.push_back( itr->as<T>() );] *)
Fixpoint from_variant_loop (vars : variants) : M (C * Σ) unit :=
  match vars with
  | [] => ret tt
  | itr :: rest =>
      fun '(tmp, σ) =>
        match as_ T_default from_variant_T itr σ with
        | (returns x, σ') => from_variant_loop rest (add x tmp, σ')
        | (throws e, σ') => (throws e, (tmp, σ'))
        end
  end.

(** [const variants& vars = var.get_array(); tmp.clear();
     tmp.reserve( vars.size() );] and the loop. *)
Definition from_variant_container (empty : C) (var : variant) : M (C * Σ) unit :=
  fun '(tmp, σ) =>
    match get_array_const var with
    | throws e => (throws e, (tmp, σ))
    | returns vars => from_variant_loop vars (empty, σ)
    end.

(** [converts vars σ xs σ']: from the store [σ], [as<T>()] succeeds on each
    element of [vars] in turn, giving [xs] and the store [σ']. *)
Inductive converts : variants -> Σ -> list T -> Σ -> Prop :=
| converts_nil σ : converts [] σ [] σ
| converts_cons v vars σ x σ1 xs σ2 :
    as_ T_default from_variant_T v σ = (returns x, σ1) ->
    converts vars σ1 xs σ2 ->
    converts (v :: vars) σ (x :: xs) σ2.

(** [encodes xs σ vars σ']: from the store [σ], [variant( x )] succeeds on
    each element of [xs] in turn, giving [vars] and the store [σ']. *)
Inductive encodes : list T -> Σ -> variants -> Σ -> Prop :=
| encodes_nil σ : encodes [] σ [] σ
| encodes_cons x xs σ v σ1 vars σ2 :
    variant_T x σ = (returns v, σ1) ->
    encodes xs σ1 vars σ2 ->
    encodes (x :: xs) σ (v :: vars) σ2.

(** The destination after the elements [xs] were added one by one. *)
Definition added (xs : list T) (c : C) : C := foldl (fun c x => add x c) c xs.

(** The conversions of [T] are exact on the elements [xs]: from any store,
    [variant( x )] succeeds and is [enc x], and [as<T>()] of [enc x] succeeds
    and is [x]. *)
Definition exact_on (enc : T -> variant) (xs : list T) : Prop :=
  forall x, x ∈ xs ->
    (forall σ, exists σ', variant_T x σ = (returns (enc x), σ'))
    /\ (forall σ, exists σ', as_ T_default from_variant_T (enc x) σ = (returns x, σ')).

End Containers.

(** *** [std::vector<T>] *)

Section Vector.
Context {Σ T : Type}.
Variable T_default : T.
Variable variant_T : T -> M Σ variant.
Variable from_variant_T : variant -> M (T * Σ) unit.

(** [tmp.push_back( x )] *)
Definition push_back (x : T) (tmp : list T) : list T := tmp ++ [x].

(** [void to_variant( const std::vector<T>& t, variant& v )] *)
Definition to_variant_vector (t : list T) : M (variant * Σ) unit :=
  to_variant_container variant_T t.

(** [void from_variant( const variant& var, std::vector<T>& tmp )] *)
Definition from_variant_vector (var : variant) : M (list T * Σ) unit :=
  from_variant_container T_default from_variant_T push_back [] var.

(** The round trip of a vector through a variant, from the store [σ]:
    [to_variant( xs, v )] leaves an Array of [xs.size()] elements in [v], and
    [from_variant] of that Array gives [xs] back. *)
Definition vector_round_trip (xs : list T) (σ : Σ) : Prop :=
  exists vars σ1 σ2,
    to_variant_vector xs (v_null, σ) = (returns tt, (v_array vars, σ1))
    /\ length vars = length xs
    /\ from_variant_vector (v_array vars) ([], σ1)
       = (returns tt, (xs, σ2)).

(** A failing [from_variant] into a vector leaves the vector as it was. *)
Definition vector_unchanged_on_failure (var : variant) (tmp : list T) (σ : Σ) : Prop :=
  forall e tmp' σ',
    from_variant_vector var (tmp, σ) = (throws e, (tmp', σ')) ->
    tmp' = tmp.

End Vector.

(** *** [std::unordered_set<T>] and [std::set<T>]

    A set is the sequence of its elements in iteration order, without
    repetition. Where a hash table puts a new element in that order is not
    fixed by the language: [place] stands for it. *)

Section UnorderedSet.
Context {Σ T : Type} `{EqDecision T}.
Variable T_default : T.
Variable variant_T : T -> M Σ variant.
Variable from_variant_T : variant -> M (T * Σ) unit.
Variable place : T -> list T -> list T.

(** [vo.insert( x )] *)
Definition unordered_set_insert (x : T) (vo : list T) : list T :=
  if decide (x ∈ vo) then vo else place x vo.

(** [operator==] of two unordered sets: the same size, and every element of
    one is found in the other. *)
Definition unordered_set_eq (a b : list T) : Prop :=
  length a = length b /\ forall x, x ∈ a -> x ∈ b.

(** [void to_variant( const std::unordered_set<T>& var, variant& vo )]:
    the elements are taken in iteration order. *)
Definition to_variant_unordered_set (var : list T) : M (variant * Σ) unit :=
  to_variant_container variant_T var.

(** [void from_variant( const variant& var, std::unordered_set<T>& vo )] *)
Definition from_variant_unordered_set (var : variant) : M (list T * Σ) unit :=
  from_variant_container T_default from_variant_T unordered_set_insert [] var.

(** [void to_variant( const std::set<T>& var, variant& vo )]: the same loop
    over the set's (ascending) iteration order. The header's
    [from_variant( const variant&, std::set<T>& )] calls [vo.reserve], which
    [std::set] does not have: that template has no instance, and nothing of
    it is embedded. *)
Definition to_variant_set (var : list T) : M (variant * Σ) unit :=
  to_variant_container variant_T var.

(** A new element goes somewhere in the iteration order, and moves nothing
    out. *)
Definition places_new_element : Prop := forall x l, place x l ≡ₚ x :: l.

(** The round trip of an unordered set through a variant, from the store
    [σ]: [to_variant] leaves an Array with one element per member, and
    [from_variant] of that Array gives a set equal to the first. *)
Definition unordered_set_round_trip (s : list T) (σ : Σ) : Prop :=
  exists vars σ1 back σ2,
    to_variant_unordered_set s (v_null, σ) = (returns tt, (v_array vars, σ1))
    /\ length vars = length s
    /\ from_variant_unordered_set (v_array vars) ([], σ1) = (returns tt, (back, σ2))
    /\ unordered_set_eq back s.

End UnorderedSet.

(** *** [fc::optional<T>] *)

Section Optional.
Context {Σ T : Type}.
Variable T_default : T.
Variable variant_T : T -> M Σ variant.
Variable from_variant_T : variant -> M (T * Σ) unit.

(** Modelled from the spec: the body of [operator=( variant&& )] is not in
    the header; it releases the payload the destination held and takes over
    the assigned value. A destination that was never initialised holds no
    payload: when its bytes read as a String, an Array or an Object, the
    release is of a payload nobody allocated, which is an error. [previous]
    is the variant the destination read as. *)
Definition assign_over (previous assigned : variant) : M Σ variant :=
  if is_string previous || is_array previous || is_object previous
  then throw invalid_pointer
  else ret assigned.

(** [template<typename T> variant::variant( const optional<T>& v )]:
    [if( v ) *this = variant( *v );] and nothing else. The constructor has no
    member initialisers and the members have no default ones, so the storage
    holds whatever it held before: [uninitialised] is the variant those bytes
    read as. *)
Definition variant_from_optional (uninitialised : variant) (v : option T) : M Σ variant :=
  match v with
  | Some x => let* assigned := variant_T x in assign_over uninitialised assigned
  | None => ret uninitialised
  end.

(** [void from_variant( const variant& var, optional<T>& vo )] *)
Definition from_variant_optional (var : variant) : M (option T * Σ) unit :=
  fun '(vo, σ) =>
    if is_null var then (returns tt, (None, σ))
    else
      let '(r, (x, σ')) := from_variant_T var (T_default, σ) in
      (r, (Some x, σ')).

End Optional.

(** *** [std::shared_ptr<T>]

    The objects of type [T] that shared pointers own live in a heap of cells;
    a pointer is empty or the address of a cell. [std::make_shared<T>()] takes
    the next address. Cells are never reclaimed here. The conversions of [T]
    act on the pointee they are given and on the store [Σ]; the heap of the
    [T] cells itself is out of their reach. *)

Definition shared_ptr : Type := option nat.

Section SharedPtr.
Context {Σ T : Type}.
Variable T_default : T.
Variable to_variant_T : T -> M (variant * Σ) unit.
Variable from_variant_T : variant -> M (T * Σ) unit.

(** [to_variant( *var, vo )] and [from_variant( var, *vo )] at the cell [l]. *)
Definition to_variant_pointee (l : nat) : M (variant * (list T * Σ)) unit :=
  fun '(vo, (heap, σ)) =>
    match heap !! l with
    | Some pointee =>
        let '(r, (vo', σ')) := to_variant_T pointee (vo, σ) in (r, (vo', (heap, σ')))
    | None => (throws invalid_pointer, (vo, (heap, σ)))
    end.

Definition from_variant_pointee (var : variant) (l : nat) : M (list T * Σ) unit :=
  fun '(heap, σ) =>
    match heap !! l with
    | Some pointee =>
        let '(r, (pointee', σ')) := from_variant_T var (pointee, σ) in
        (r, (<[l:=pointee']> heap, σ'))
    | None => (throws invalid_pointer, (heap, σ))
    end.

(** [void to_variant( const std::shared_ptr<T>& var, variant& vo )]:
    [if( var ) to_variant( *var, vo ); else vo = nullptr;] *)
Definition to_variant_shared_ptr (var : shared_ptr) : M (variant * (list T * Σ)) unit :=
  match var with
  | Some l => to_variant_pointee l
  | None => fun '(vo, st) => (returns tt, (variant_nullptr, st))
  end.

(** [void from_variant( const variant& var, std::shared_ptr<T>& vo )] *)
Definition from_variant_shared_ptr (var : variant) : M (shared_ptr * (list T * Σ)) unit :=
  fun '(vo, (heap, σ)) =>
    if is_null var then (returns tt, (None, (heap, σ)))
    else
      match vo with
      | Some l =>
          let '(r, st) := from_variant_pointee var l (heap, σ) in (r, (Some l, st))
      | None =>
          let l := length heap in
          let '(r, st) := from_variant_pointee var l (heap ++ [T_default], σ) in
          (r, (Some l, st))
      end.

End SharedPtr.

(** *** Built-in scalars *)

Section Int64.
Context {Σ : Type}.
Variable as_int64_other : variant -> result Z.
Variable double_to_int64_undefined : float -> Z.

(** Modelled from the spec: the body of [variant( int64_t val )] is not in
    the header; an integer gives the Int64 kind. *)
Definition variant_int64 (val : Z) : M Σ variant := ret (v_int64 val).

(** Modelled from the spec: the body of
    [from_variant( const variant&, int64_t& )] is not in the header; the
    destination takes [var.as_int64()]. *)
Definition from_variant_int64 (var : variant) : M (Z * Σ) unit :=
  fun '(vo, σ) =>
    match as_int64 as_int64_other double_to_int64_undefined var with
    | returns i => (returns tt, (i, σ))
    | throws e => (throws e, (vo, σ))
    end.

End Int64.

(** ** Concrete element types

    What the spec leaves open about [as_int64()] is fixed here to have closed
    terms; no statement below runs into these choices. *)

Definition i64_other : variant -> result Z := fun _ => throws type_mismatch.
Definition i64_undefined : float -> Z := fun _ => 0.

(** [int64_t]: no store. *)
Definition variant_i64 : Z -> M unit variant := variant_int64.
Definition from_variant_i64 : variant -> M (Z * unit) unit :=
  from_variant_int64 i64_other i64_undefined.

(** [std::vector<int64_t>] *)
Definition to_variant_vec : list Z -> M (variant * unit) unit :=
  to_variant_vector variant_i64.
Definition from_variant_vec : variant -> M (list Z * unit) unit :=
  from_variant_vector 0 from_variant_i64.

(** [std::vector<std::vector<int64_t>>] *)
Definition from_variant_vec_vec : variant -> M (list (list Z) * unit) unit :=
  from_variant_vector [] from_variant_vec.

(** [std::shared_ptr<std::vector<int64_t>>]: the store is the heap of the
    vectors. *)
Definition store_ptr : Type := list (list Z) * unit.
Definition to_variant_ptr : shared_ptr -> M (variant * store_ptr) unit :=
  to_variant_shared_ptr to_variant_vec.
Definition from_variant_ptr : variant -> M (shared_ptr * store_ptr) unit :=
  from_variant_shared_ptr [] from_variant_vec.

(** [std::shared_ptr<std::shared_ptr<std::vector<int64_t>>>]: the store
    adds the heap of the inner pointers. *)
Definition store_ptr_ptr : Type := list shared_ptr * store_ptr.
Definition to_variant_ptr_ptr : shared_ptr -> M (variant * store_ptr_ptr) unit :=
  to_variant_shared_ptr to_variant_ptr.
Definition from_variant_ptr_ptr : variant -> M (shared_ptr * store_ptr_ptr) unit :=
  from_variant_shared_ptr None from_variant_ptr.

(** A store with one inner pointer, at address 0, which is empty. *)
Definition store_empty_inner : store_ptr_ptr := ([None], ([], tt)).

(** ** The storage of a variant: tag, slot and heap handle *)

Module Storage.

(** What a heap-owned handle points to. *)
Inductive payload : Type :=
| string_payload (s : string)
| array_payload (a : variants)
| object_payload (o : variant_object).

(** The two members of [class variant]: [_data], the eight bytes that hold
    the scalar or the address of the payload, and [_type], the tag. *)
Record storage : Type := Build_storage { _data : Z; _type : type_id }.

(** The heap of payloads: the live cells by address, and the addresses
    released so far, latest first. *)
Record heap : Type := Build_heap { cells : gmap Z payload; released : list Z }.

(** The tags whose slot is a handle. *)
Definition owns_payload (t : type_id) : bool :=
  match t with
  | string_type | array_type | object_type => true
  | _ => false
  end.

Definition null_storage : storage := {| _data := 0; _type := null_type |}.

Definition storage_is_null (v : storage) : bool := bool_decide (_type v = null_type).

(** The release of the payload at the address [a]; releasing what is not
    live is an error. *)
Definition release (a : Z) : M heap unit :=
  fun h =>
    match cells h !! a with
    | Some _ => (returns tt, {| cells := delete a (cells h); released := a :: released h |})
    | None => (throws invalid_pointer, h)
    end.

(** Modelled from the spec: the body of [~variant()] is not in the header;
    it releases by tag, and does nothing for the inline kinds. *)
Definition destroy (v : storage) : M heap unit :=
  if owns_payload (_type v) then release (_data v) else ret tt.

(** Modelled from the spec: the body of [variant( variant&& )] is not in the
    header; the new variant takes over the tag and the slot, and the source
    is reset to Null. The state is the source and the heap; the result is
    the new variant. *)
Definition move_construct : M (storage * heap) storage :=
  fun '(v, h) => (returns v, (null_storage, h)).

(** Modelled from the spec: the body of [operator=( variant&& )] is not in
    the header; it releases what the destination held, then takes over the
    tag and the slot of the source, which is reset to Null. The state is the
    destination, the source (another object) and the heap. *)
Definition move_assign : M (storage * storage * heap) unit :=
  fun '(this, v, h) =>
    match destroy this h with
    | (returns _, h') => (returns tt, (v, null_storage, h'))
    | (throws e, h') => (throws e, (this, v, h'))
    end.

(** A variant the heap accounts for: a handle is the address of a live cell. *)
Definition well_formed (v : storage) (h : heap) : Prop :=
  owns_payload (_type v) = true -> is_Some (cells h !! _data v).

(** A String variant whose payload is the one live cell, at address 16. *)
Definition string_at_16 : storage := {| _data := 16; _type := string_type |}.
Definition heap_with_16 : heap :=
  {| cells := {[ 16 := string_payload "fc" ]}; released := [] |}.

End Storage.

(** * Properties *)

(** ** Machine integers *)

Lemma to_int64_id z : int64_range z -> to_int64 z = z.
Proof.
  unfold int64_range, int64_min, int64_max, to_int64. intros Hz.
  rewrite Z.mod_small; lia.
Qed.

Lemma to_int64_range z : int64_range (to_int64 z).
Proof.
  unfold int64_range, int64_min, int64_max, to_int64.
  pose proof (Z.mod_pos_bound (z + 2 ^ 63) (2 ^ 64)). lia.
Qed.

Lemma to_uint64_neg z : int64_min <= z < 0 -> to_uint64 z = z + 2 ^ 64.
Proof.
  unfold int64_min, to_uint64. intros Hz.
  symmetry. apply Z.mod_unique with (q := -1); lia.
Qed.

Lemma to_int32_id z : - 2 ^ 31 <= z < 2 ^ 31 -> to_int32 z = z.
Proof. unfold to_int32. intros Hz. rewrite Z.mod_small; lia. Qed.

Lemma bind_returns {S A B} (m : M S A) (k : A -> M S B) s a s' :
  m s = (returns a, s') -> bind m k s = k a s'.
Proof. unfold bind. intros ->. reflexivity. Qed.

Lemma bind_throws {S A B} (m : M S A) (k : A -> M S B) s e s' :
  m s = (throws e, s') -> bind m k s = (throws e, s').
Proof. unfold bind. intros ->. reflexivity. Qed.

Example double_trunc_3_9 : double_trunc 3.9%float = Some 3.
Proof. vm_compute. reflexivity. Qed.
Example double_trunc_neg : double_trunc (-2.5)%float = Some (-2).
Proof. vm_compute. reflexivity. Qed.
Example variant_zeroed_tag : type_id_value (get_type variant_zeroed) = 0.
Proof. reflexivity. Qed.
Example pretty_42 : pretty 42%Z = "42"%string.
Proof. vm_compute. reflexivity. Qed.

(** ** Properties of the time types *)

Module TimeFacts.
Import Time.

Lemma maximum_count : _count (elapsed maximum) = 2 ^ 63 - 1.
Proof. reflexivity. Qed.

Lemma lt_min_iff t : lt t min = true <-> _count (elapsed t) < 0.
Proof. unfold lt, min. simpl. apply Z.ltb_lt. Qed.

Lemma gt_maximum_false t : representable t -> gt t maximum = false.
Proof.
  unfold representable, int64_range, int64_max, gt. rewrite maximum_count.
  intros [_ Hle]. rewrite Z.gtb_ltb. apply Z.ltb_ge. exact Hle.
Qed.

(** C10: [time_point::min()] is [time_point(microseconds(0))], the epoch, and
    not the least time point: every representable time point with a negative
    count is below it (and one exists). [time_point::maximum()] has count
    [2^63 - 1], and no representable time point is greater than it. *)
Theorem time_point_min_is_epoch :
  min = time_point_ctor (microseconds_ctor 0)
  /\ (forall t, representable t -> _count (elapsed t) < 0 -> lt t min = true)
  /\ (exists t, representable t /\ lt t min = true)
  /\ _count (elapsed maximum) = 2 ^ 63 - 1
  /\ representable maximum
  /\ (forall t, representable t -> gt t maximum = false).
Proof.
  split; [reflexivity|].
  split; [intros t _ Hneg; by apply lt_min_iff|].
  split.
  { exists (time_point_ctor (microseconds_ctor (-1))). split; [|reflexivity].
    unfold representable, int64_range, int64_min, int64_max. simpl. lia. }
  split; [apply maximum_count|].
  split; [|apply gt_maximum_false].
  unfold representable, int64_range, int64_min, int64_max. simpl. lia.
Qed.

(** The least [int64_t] count is representable and below [min()]. *)
Lemma time_point_min_is_epoch_witness :
  lt (time_point_ctor (microseconds_ctor int64_min)) min = true
  /\ gt (time_point_ctor (microseconds_ctor int64_min)) maximum = false.
Proof.
  pose proof time_point_min_is_epoch as (_ & Hlt & _ & _ & _ & Hgt).
  assert (Hrep : representable (time_point_ctor (microseconds_ctor int64_min))).
  { unfold representable, int64_range, int64_min, int64_max. simpl. lia. }
  split; [apply Hlt; [exact Hrep | unfold int64_min; simpl; lia] | apply Hgt; exact Hrep].
Defined.

(** The spec's examples of time arithmetic. *)
Example seconds_plus_milliseconds :
  microseconds_eq (microseconds_add (seconds 1) (milliseconds 500))
                  (microseconds_ctor 1500000) = true.
Proof. reflexivity. Qed.

Example time_point_difference :
  microseconds_eq
    (sub (add (time_point_ctor (microseconds_ctor 0)) (seconds 5))
         (time_point_ctor (microseconds_ctor 0)))
    (seconds 5) = true.
Proof. reflexivity. Qed.

End TimeFacts.

(** ** Properties of the accessors *)

Lemma get_type_cases v :
  get_type v = null_type \/ get_type v = int64_type \/ get_type v = uint64_type
  \/ get_type v = double_type \/ get_type v = bool_type \/ get_type v = string_type
  \/ get_type v = array_type \/ get_type v = object_type.
Proof. destruct v; simpl; tauto. Qed.

Lemma is_null_true v : is_null v = true <-> v = v_null.
Proof.
  unfold is_null. rewrite bool_decide_eq_true.
  destruct v; simpl; split; intros H; congruence.
Qed.

Lemma is_null_false v : is_null v = false <-> v <> v_null.
Proof.
  rewrite <- is_null_true. destruct (is_null v); split; congruence.
Qed.

(** C2: [get_string], [get_array] and [get_object] fail with a type mismatch
    whenever the tag is not the required one, and succeed on the required
    one; [get_string()] on [variant(42)] fails. The one exception: the mutable
    [get_array()] / [get_object()] succeed on Null and leave the variant an
    empty Array / Object, where the const forms fail. A failing mutable
    accessor leaves the variant as it was. *)
Theorem accessors_require_exact_tag :
  (forall v, get_type v <> string_type -> get_string v = throws type_mismatch)
  /\ (forall v, get_type v = string_type -> succeeded (get_string v))
  /\ get_string (v_int64 42) = throws type_mismatch
  /\ (forall v, get_type v <> array_type -> get_array_const v = throws type_mismatch)
  /\ (forall v, get_type v = array_type -> succeeded (get_array_const v))
  /\ (forall v, get_type v <> object_type -> get_object_const v = throws type_mismatch)
  /\ (forall v, get_type v = object_type -> succeeded (get_object_const v))
  /\ (forall v, get_type v <> array_type -> get_type v <> null_type ->
        get_array v = (throws type_mismatch, v))
  /\ (forall v, get_type v = array_type -> succeeded (get_array v).1 /\ (get_array v).2 = v)
  /\ (forall v, get_type v <> object_type -> get_type v <> null_type ->
        get_object v = (throws type_mismatch, v))
  /\ (forall v, get_type v = object_type -> succeeded (get_object v).1 /\ (get_object v).2 = v)
  /\ get_array v_null = (returns [], v_array [])
  /\ get_object v_null = (returns [], v_object [])
  /\ get_array_const v_null = throws type_mismatch
  /\ get_object_const v_null = throws type_mismatch.
Proof.
  repeat match goal with |- _ /\ _ => split end; try reflexivity;
    intros [] **; simpl in *; try congruence; try exact I; try (split; [exact I | reflexivity]).
Qed.

(** A String is handed out by [get_string], and [variant(42)] is refused by
    every one of the accessors. *)
Lemma accessors_require_exact_tag_witness :
  succeeded (get_string (v_string "fc"))
  /\ get_array (v_int64 42) = (throws type_mismatch, v_int64 42)
  /\ get_object_const (v_int64 42) = throws type_mismatch.
Proof.
  pose proof accessors_require_exact_tag
    as (_ & Hs & _ & _ & _ & Ho & _ & Ha & _).
  split; [apply Hs; reflexivity|].
  split; [apply Ha; simpl; congruence | apply Ho; simpl; congruence].
Defined.

(** C8: [as_string()] succeeds on Null, Int64, UInt64, Double and Bool (and
    on String), [variant(42).as_string()] is ["42"], and [as_string()] fails,
    with a type mismatch, exactly on Array and Object. *)
Theorem as_string_renders_scalars
    (render_null : string) (render_bool : bool -> string)
    (render_double : float -> string) :
  let as_string := as_string render_null render_bool render_double in
  (forall v, get_type v ∈ [null_type; int64_type; uint64_type; double_type; bool_type] ->
        succeeded (as_string v))
  /\ as_string (v_int64 42) = returns "42"%string
  /\ (forall v, as_string v = throws type_mismatch <->
                get_type v = array_type \/ get_type v = object_type)
  /\ (forall v e, as_string v = throws e -> e = type_mismatch).
Proof.
  intros as_string. subst as_string. split; [|split; [|split]].
  - intros v Hin. destruct v; simpl in *; try exact I;
      repeat (apply elem_of_cons in Hin as [Hin|Hin]; [discriminate|]);
      by apply elem_of_nil in Hin.
  - vm_compute. reflexivity.
  - intros v. destruct v; simpl; split; intros H; try discriminate; try tauto;
      destruct H; discriminate.
  - intros v e. destruct v; simpl; intros H; try discriminate; congruence.
Qed.

(** [variant(true)] and [variant(42)] are rendered; an Array is refused. *)
Lemma as_string_renders_scalars_witness :
  succeeded (as_string "null" (fun b : bool => if b then "true" else "false")
               (fun _ => "0.0") (v_bool true))
  /\ as_string "null" (fun b : bool => if b then "true" else "false")
       (fun _ => "0.0") (v_array []) = throws type_mismatch.
Proof.
  pose proof (as_string_renders_scalars "null"
                (fun b : bool => if b then "true" else "false") (fun _ => "0.0"))
    as (Hok & _ & Hfail & _).
  split.
  - apply Hok. simpl. do 4 (apply elem_of_cons; right). apply elem_of_cons. by left.
  - apply Hfail. by left.
Defined.

(** C9: the four coercions succeed on every numeric kind; a Double answers
    [as_int64()] with its integer part (toward zero), so
    [variant(3.9).as_int64() == 3]; a negative Int64 answers [as_uint64()] with
    its two's-complement reading, so [variant(-1).as_uint64() == 2^64 - 1]. *)
Theorem numeric_coercions
    (i64_other u64_other : variant -> result Z)
    (bool_other : variant -> result bool) (double_other : variant -> result float)
    (i64_undefined u64_undefined : float -> Z) :
  let as_int64 := as_int64 i64_other i64_undefined in
  let as_uint64 := as_uint64 u64_other u64_undefined in
  let as_bool := as_bool bool_other in
  let as_double := as_double double_other in
  (forall v, is_numeric v = true ->
        succeeded (as_int64 v) /\ succeeded (as_uint64 v)
        /\ succeeded (as_bool v) /\ succeeded (as_double v))
  /\ (forall d z, double_trunc d = Some z -> int64_range z ->
        as_int64 (v_double d) = returns z)
  /\ as_int64 (v_double 3.9) = returns 3
  /\ as_int64 (v_double (-3.9)) = returns (-3)
  /\ (forall i, int64_min <= i < 0 -> as_uint64 (v_int64 i) = returns (i + 2 ^ 64))
  /\ as_uint64 (v_int64 (-1)) = returns (2 ^ 64 - 1).
Proof.
  intros as_int64' as_uint64' as_bool' as_double'.
  subst as_int64' as_uint64' as_bool' as_double'.
  split; [|split; [|split; [|split; [|split]]]].
  - intros v Hnum. destruct v; simpl; try discriminate Hnum; repeat split.
  - intros d z Htr Hz. simpl. unfold double_to_int64. rewrite Htr.
    by rewrite bool_decide_eq_true_2.
  - vm_compute. reflexivity.
  - vm_compute. reflexivity.
  - intros i Hi. simpl. by rewrite to_uint64_neg.
  - vm_compute. reflexivity.
Qed.

(** The coercions at [variant(true)], at the double 2.5 and at the least
    [int64_t]. *)
Lemma numeric_coercions_witness :
  succeeded (as_double (fun _ => throws type_mismatch) (v_bool true))
  /\ as_int64 (fun _ => throws type_mismatch) (fun _ => 0) (v_double 2.5) = returns 2
  /\ as_uint64 (fun _ => throws type_mismatch) (fun _ => 0) (v_int64 int64_min)
     = returns (int64_min + 2 ^ 64).
Proof.
  pose proof (numeric_coercions
                (fun _ => throws type_mismatch) (fun _ => throws type_mismatch)
                (fun _ => throws type_mismatch) (fun _ => throws type_mismatch)
                (fun _ => 0) (fun _ => 0)) as (Hnum & Htr & _ & _ & Hneg & _).
  split; [apply (Hnum (v_bool true)); reflexivity|].
  split; [apply Htr; [vm_compute; reflexivity | vm_compute; split; discriminate]|].
  apply Hneg. vm_compute. split; [discriminate | reflexivity].
Defined.

(** ** Properties of the container overloads *)

Section ContainerFacts.
Context {Σ T C : Type}.
Variable T_default : T.
Variable variant_T : T -> M Σ variant.
Variable from_variant_T : variant -> M (T * Σ) unit.
Variable add : T -> C -> C.

Local Abbreviation as_T := (as_ T_default from_variant_T).
Local Abbreviation from_loop := (from_variant_loop T_default from_variant_T add).
Local Abbreviation from_container := (from_variant_container T_default from_variant_T add).
Local Abbreviation to_loop := (to_variant_loop variant_T).
Local Abbreviation to_container := (to_variant_container variant_T).
Local Abbreviation converts_T := (converts T_default from_variant_T).
Local Abbreviation encodes_T := (encodes variant_T).
Local Abbreviation added_T := (added add).

Lemma converts_length vars σ xs σ' : converts_T vars σ xs σ' -> length xs = length vars.
Proof. induction 1; simpl; congruence. Qed.

Lemma encodes_length xs σ vars σ' : encodes_T xs σ vars σ' -> length vars = length xs.
Proof. induction 1; simpl; congruence. Qed.

Lemma encodes_lookup xs σ vars σ' i x :
  encodes_T xs σ vars σ' -> xs !! i = Some x ->
  exists v σa σb, vars !! i = Some v /\ variant_T x σa = (returns v, σb).
Proof.
  intros Henc. revert i. induction Henc as [|y xs σ v σ1 vars σ2 Hv _ IH]; intros i Hi.
  - discriminate.
  - destruct i as [|i]; simpl in *.
    + injection Hi as ->. eauto.
    + apply IH in Hi. exact Hi.
Qed.

Lemma from_loop_converts vars1 vars2 σ xs σ1 c :
  converts_T vars1 σ xs σ1 ->
  from_loop (vars1 ++ vars2) (c, σ) = from_loop vars2 (added_T xs c, σ1).
Proof.
  intros Hc. revert c. induction Hc as [|v vars σ x σ1 xs σ2 Hv _ IH]; intros c.
  - reflexivity.
  - simpl. rewrite Hv. apply IH.
Qed.

(** The loop of [from_variant] when every element converts. *)
Lemma from_loop_returns vars σ xs σ' c :
  converts_T vars σ xs σ' -> from_loop vars (c, σ) = (returns tt, (added_T xs c, σ')).
Proof.
  intros Hc. rewrite <- (app_nil_r vars).
  rewrite (from_loop_converts _ _ _ _ _ _ Hc). reflexivity.
Qed.

(** The loop of [from_variant] when the conversion of an element throws: the
    destination keeps the elements added_T before. *)
Lemma from_loop_throws vars1 v vars2 σ xs σ1 e σ2 c :
  converts_T vars1 σ xs σ1 -> as_T v σ1 = (throws e, σ2) ->
  from_loop (vars1 ++ v :: vars2) (c, σ) = (throws e, (added_T xs c, σ2)).
Proof.
  intros Hc Hv. rewrite (from_loop_converts _ _ _ _ _ _ Hc). simpl. by rewrite Hv.
Qed.

(** Every run of the loop is of one of these two kinds. *)
Lemma converts_or_throws vars σ :
  (exists xs σ', converts_T vars σ xs σ')
  \/ (exists vars1 v vars2 xs σ1 e σ2,
        vars = vars1 ++ v :: vars2 /\ converts_T vars1 σ xs σ1
        /\ as_T v σ1 = (throws e, σ2)).
Proof.
  revert σ. induction vars as [|v vars IH]; intros σ.
  - left. exists [], σ. constructor.
  - destruct (as_T v σ) as [[x|e] σ1] eqn:Hv.
    + destruct (IH σ1) as [(xs & σ' & Hc)|(vars1 & w & vars2 & xs & σa & e & σb & -> & Hc & Hw)].
      * left. exists (x :: xs), σ'. by econstructor.
      * right. exists (v :: vars1), w, vars2, (x :: xs), σa, e, σb.
        split; [reflexivity|]. split; [by econstructor | exact Hw].
    + right. exists [], v, vars, [], σ, e, σ1.
      split; [reflexivity|]. split; [constructor | exact Hv].
Qed.

(** The loop of [to_variant] fills [vars] from index [i] on. *)
Lemma to_loop_encodes xs : forall i vars σ vs σ',
  encodes_T xs σ vs σ' -> length vars = (i + length xs)%nat ->
  to_loop xs i vars σ = (returns (take i vars ++ vs), σ').
Proof.
  induction xs as [|x xs IH]; intros i vars σ vs σ' Henc Hlen;
    inversion Henc as [|? ? ? v σ1 vs' ? Hv Hrest]; subst.
  - simpl in *. unfold ret. rewrite app_nil_r, take_ge by lia. reflexivity.
  - simpl in *. unfold bind. rewrite Hv.
    rewrite (IH (S i) (<[i:=v]> vars) σ1 vs' σ' Hrest)
      by (rewrite length_insert; lia).
    rewrite (take_S_r _ _ v) by (apply list_lookup_insert_eq; lia).
    rewrite take_insert_ge by lia. by rewrite <- app_assoc.
Qed.

Lemma to_container_encodes xs σ vs σ' v :
  encodes_T xs σ vs σ' -> to_container xs (v, σ) = (returns tt, (v_array vs, σ')).
Proof.
  intros Henc. unfold to_variant_container.
  rewrite (to_loop_encodes xs 0 _ σ vs σ' Henc) by (by rewrite length_replicate).
  reflexivity.
Qed.

(** The loop of [to_variant] when [variant( x )] throws: the destination
    variant is not assigned. *)
Lemma to_loop_throws xs1 x xs2 : forall i vars σ vs σ1 e σ2,
  encodes_T xs1 σ vs σ1 -> variant_T x σ1 = (throws e, σ2) ->
  to_loop (xs1 ++ x :: xs2) i vars σ = (throws e, σ2).
Proof.
  induction xs1 as [|y xs1 IH]; intros i vars σ vs σ1 e σ2 Henc Hx;
    inversion Henc as [|? ? ? ? ? ? ? Hv Hrest]; subst.
  - simpl. unfold bind. by rewrite Hx.
  - simpl. unfold bind. rewrite Hv. eapply IH; eassumption.
Qed.

Lemma from_container_not_array var c σ empty :
  get_type var <> array_type ->
  from_container empty var (c, σ) = (throws type_mismatch, (c, σ)).
Proof. intros Hty. destruct var; simpl in *; congruence. Qed.

End ContainerFacts.

Section ElementFacts.
Context {Σ T : Type}.
Variable T_default : T.
Variable variant_T : T -> M Σ variant.
Variable from_variant_T : variant -> M (T * Σ) unit.

Local Abbreviation exact := (exact_on T_default variant_T from_variant_T).
Local Abbreviation round_trip := (vector_round_trip T_default variant_T from_variant_T).

Lemma exact_on_cons enc x xs :
  exact enc (x :: xs) -> exact enc xs.
Proof. intros H y Hy. apply H. apply elem_of_cons. by right. Qed.

Lemma exact_on_perm enc xs ys : xs ≡ₚ ys -> exact enc xs -> exact enc ys.
Proof. intros Hp H y Hy. apply H. by rewrite Hp. Qed.

Lemma exact_on_encodes enc xs σ :
  exact enc xs -> exists σ', encodes variant_T xs σ (enc <$> xs) σ'.
Proof.
  revert σ. induction xs as [|x xs IH]; intros σ Hex.
  - exists σ. constructor.
  - destruct (Hex x) as [Hto _]; [apply elem_of_cons; by left|].
    destruct (Hto σ) as [σ1 Hx].
    destruct (IH σ1 (exact_on_cons _ _ _ Hex)) as [σ2 Hxs].
    exists σ2. simpl. by econstructor.
Qed.

Lemma exact_on_converts enc xs σ :
  exact enc xs ->
  exists σ', converts T_default from_variant_T (enc <$> xs) σ xs σ'.
Proof.
  revert σ. induction xs as [|x xs IH]; intros σ Hex.
  - exists σ. constructor.
  - destruct (Hex x) as [_ Hfrom]; [apply elem_of_cons; by left|].
    destruct (Hfrom σ) as [σ1 Hx].
    destruct (IH σ1 (exact_on_cons _ _ _ Hex)) as [σ2 Hxs].
    exists σ2. simpl. by econstructor.
Qed.

Lemma added_push_back (xs tmp : list T) : added push_back xs tmp = tmp ++ xs.
Proof.
  revert tmp. induction xs as [|x xs IH]; intros tmp; simpl.
  - by rewrite app_nil_r.
  - rewrite IH. unfold push_back. by rewrite <- app_assoc.
Qed.

(** C5 (amended): when the conversions of [T] are exact on the elements of
    [xs], [to_variant( xs )] is the Array of the [xs.size()] variants
    [variant( xs[i] )], in order, and [from_variant] of that Array into any
    vector gives [xs] back. *)
Theorem vector_round_trip_exact (enc : T -> variant) (xs : list T) :
  exact enc xs ->
  (forall v σ, exists σ1,
      to_variant_vector variant_T xs (v, σ) = (returns tt, (v_array (enc <$> xs), σ1)))
  /\ length (enc <$> xs) = length xs
  /\ (forall i x, xs !! i = Some x -> (enc <$> xs) !! i = Some (enc x))
  /\ (forall tmp σ, exists σ2,
        from_variant_vector T_default from_variant_T (v_array (enc <$> xs)) (tmp, σ)
        = (returns tt, (xs, σ2)))
  /\ (forall σ, round_trip xs σ).
Proof.
  intros Hex.
  assert (Hto : forall v σ, exists σ1,
             to_variant_vector variant_T xs (v, σ)
             = (returns tt, (v_array (enc <$> xs), σ1))).
  { intros v σ. destruct (exact_on_encodes enc xs σ Hex) as [σ1 Henc].
    exists σ1. by apply to_container_encodes. }
  assert (Hfrom : forall tmp σ, exists σ2,
             from_variant_vector T_default from_variant_T (v_array (enc <$> xs)) (tmp, σ)
             = (returns tt, (xs, σ2))).
  { intros tmp σ. destruct (exact_on_converts enc xs σ Hex) as [σ2 Hconv].
    exists σ2. unfold from_variant_vector, from_variant_container. simpl.
    rewrite (from_loop_returns _ _ _ _ _ _ _ _ Hconv).
    by rewrite added_push_back. }
  split; [exact Hto|]. split; [apply length_fmap|].
  split; [intros i x Hi; by rewrite list_lookup_fmap, Hi|].
  split; [exact Hfrom|].
  intros σ. destruct (Hto v_null σ) as [σ1 H1]. destruct (Hfrom [] σ1) as [σ2 H2].
  exists (enc <$> xs), σ1, σ2. split; [exact H1|]. split; [apply length_fmap | exact H2].
Qed.

End ElementFacts.

Lemma exact_on_i64 xs : exact_on 0 variant_i64 from_variant_i64 v_int64 xs.
Proof. intros x _. split; intros []; exists tt; reflexivity. Qed.

(** The vector [[1,2,3]] becomes an Array of three Int64 variants in order,
    which converts back to [[1,2,3]]. *)
Lemma vector_round_trip_exact_witness :
  to_variant_vec [1; 2; 3] (v_null, tt)
  = (returns tt, (v_array [v_int64 1; v_int64 2; v_int64 3], tt))
  /\ from_variant_vec (v_array [v_int64 1; v_int64 2; v_int64 3]) ([], tt)
     = (returns tt, ([1; 2; 3], tt)).
Proof.
  destruct (vector_round_trip_exact 0 variant_i64 from_variant_i64 v_int64 [1; 2; 3]
              (exact_on_i64 _)) as (Hto & _ & _ & Hfrom & _).
  destruct (Hto v_null tt) as [[] H1]. destruct (Hfrom [] tt) as [[] H2].
  split; [exact H1 | exact H2].
Defined.

(** C5 as stated fails: a vector holding one pointer to an empty pointer
    becomes the Array [[null]], which converts back to a vector holding one
    empty pointer. *)
Lemma vector_round_trip_counterexample :
  ~ vector_round_trip None (variant_from to_variant_ptr_ptr) from_variant_ptr_ptr
      [Some 0%nat] store_empty_inner.
Proof.
  intros (vars & σ1 & σ2 & Hto & _ & Hfrom).
  vm_compute in Hto. injection Hto as <- <-.
  vm_compute in Hfrom. discriminate Hfrom.
Qed.

Section SetFacts.
Context {Σ T : Type} `{EqDecision T}.
Variable T_default : T.
Variable variant_T : T -> M Σ variant.
Variable from_variant_T : variant -> M (T * Σ) unit.
Variable place : T -> list T -> list T.

Local Abbreviation insert_T := (unordered_set_insert place).
Local Abbreviation from_set := (from_variant_unordered_set T_default from_variant_T place).
Local Abbreviation from_vector := (from_variant_vector T_default from_variant_T).
Local Abbreviation converts_T := (converts T_default from_variant_T).
Local Abbreviation places_new := (places_new_element place).
Local Abbreviation set_round_trip :=
  (unordered_set_round_trip T_default variant_T from_variant_T place).

Lemma added_insert_new xs : forall c,
  places_new -> NoDup xs -> NoDup c -> (forall x, x ∈ xs -> x ∉ c) ->
  added insert_T xs c ≡ₚ c ++ xs.
Proof.
  induction xs as [|x xs IH]; intros c Hplace Hxs Hc Hfresh; simpl.
  - by rewrite app_nil_r.
  - apply NoDup_cons in Hxs as [Hx Hxs].
    assert (Hxc : x ∉ c) by (apply Hfresh; apply elem_of_cons; by left).
    unfold unordered_set_insert at 2. rewrite decide_False by exact Hxc.
    rewrite IH; [|exact Hplace|exact Hxs| |].
    + rewrite (Hplace x c). simpl. apply Permutation_middle.
    + rewrite (Hplace x c). apply NoDup_cons. by split.
    + intros y Hy. rewrite (Hplace x c). apply not_elem_of_cons. split.
      * intros ->. by apply Hx.
      * apply Hfresh. apply elem_of_cons. by right.
Qed.

Lemma unordered_set_eq_perm (a b : list T) : a ≡ₚ b -> unordered_set_eq a b.
Proof.
  intros Hp. split; [by rewrite Hp|]. intros x Hx. by rewrite <- Hp.
Qed.

(** C6 (amended): when the conversions of [T] are exact on the members of a
    set [s], [to_variant] of [s], as a [std::unordered_set<T>] or as a
    [std::set<T>], is an Array with exactly one variant per member, and
    [from_variant] into a [std::unordered_set<T>] of the Array of these
    variants, in whatever order, gives a set equal to [s]. *)
Theorem unordered_set_round_trip_exact (enc : T -> variant) (s : list T) :
  places_new -> NoDup s -> exact_on T_default variant_T from_variant_T enc s ->
  (forall vo σ, exists σ1,
      to_variant_unordered_set variant_T s (vo, σ)
      = (returns tt, (v_array (enc <$> s), σ1)))
  /\ (forall vo σ, exists σ1,
        to_variant_set variant_T s (vo, σ) = (returns tt, (v_array (enc <$> s), σ1)))
  /\ length (enc <$> s) = length s
  /\ (forall s' vo σ, s' ≡ₚ s ->
        exists back σ2,
          from_set (v_array (enc <$> s')) (vo, σ) = (returns tt, (back, σ2))
          /\ unordered_set_eq back s /\ NoDup back)
  /\ (forall σ, set_round_trip s σ).
Proof.
  intros Hplace Hnd Hex.
  assert (Hto : forall vo σ, exists σ1,
             to_variant_unordered_set variant_T s (vo, σ)
             = (returns tt, (v_array (enc <$> s), σ1))).
  { intros vo σ. destruct (exact_on_encodes _ _ _ enc s σ Hex) as [σ1 Henc].
    exists σ1. by apply to_container_encodes. }
  assert (Hfrom : forall s' vo σ, s' ≡ₚ s ->
             exists back σ2,
               from_set (v_array (enc <$> s')) (vo, σ) = (returns tt, (back, σ2))
               /\ unordered_set_eq back s /\ NoDup back).
  { intros s' vo σ Hp.
    assert (Hex' : exact_on T_default variant_T from_variant_T enc s')
      by (eapply exact_on_perm; [symmetry; exact Hp | exact Hex]).
    destruct (exact_on_converts _ _ _ enc s' σ Hex') as [σ2 Hconv].
    assert (Hadded : added insert_T s' [] ≡ₚ s).
    { rewrite added_insert_new; [exact Hp|exact Hplace|by rewrite Hp|constructor|].
      intros x _. apply not_elem_of_nil. }
    exists (added insert_T s' []), σ2.
    split; [|split; [by apply unordered_set_eq_perm | by rewrite Hadded]].
    unfold from_variant_unordered_set, from_variant_container. simpl.
    by rewrite (from_loop_returns _ _ _ _ _ _ _ _ Hconv). }
  split; [exact Hto|]. split; [exact Hto|]. split; [apply length_fmap|].
  split; [exact Hfrom|].
  intros σ. destruct (Hto v_null σ) as [σ1 H1].
  destruct (Hfrom s [] σ1 (reflexivity s)) as (back & σ2 & H2 & Heq & _).
  exists (enc <$> s), σ1, back, σ2.
  split; [exact H1|]. split; [apply length_fmap|]. split; [exact H2 | exact Heq].
Qed.

(** C3 (amended): [from_variant] into a vector or an unordered set fails
    before it touches the destination when the source is not an Array; when
    every element converts, it succeeds and the destination holds the
    converted elements; when the conversion of an element throws, it fails
    and the destination holds the elements converted before that one, in
    place of what it held. The accessors fail without changing the variant,
    and when they succeed they change it only by the promotion of Null. *)
Theorem from_variant_container_failure :
  (forall var tmp σ, get_type var <> array_type ->
      from_vector var (tmp, σ) = (throws type_mismatch, (tmp, σ))
      /\ from_set var (tmp, σ) = (throws type_mismatch, (tmp, σ)))
  /\ (forall vars tmp σ xs σ', converts_T vars σ xs σ' ->
        from_vector (v_array vars) (tmp, σ) = (returns tt, (xs, σ'))
        /\ from_set (v_array vars) (tmp, σ) = (returns tt, (added insert_T xs [], σ')))
  /\ (forall vars1 v vars2 tmp σ xs σ1 e σ2,
        converts_T vars1 σ xs σ1 ->
        as_ T_default from_variant_T v σ1 = (throws e, σ2) ->
        from_vector (v_array (vars1 ++ v :: vars2)) (tmp, σ) = (throws e, (xs, σ2))
        /\ from_set (v_array (vars1 ++ v :: vars2)) (tmp, σ)
           = (throws e, (added insert_T xs [], σ2)))
  /\ (forall vars σ,
        (exists xs σ', converts_T vars σ xs σ')
        \/ (exists vars1 v vars2 xs σ1 e σ2,
              vars = vars1 ++ v :: vars2 /\ converts_T vars1 σ xs σ1
              /\ as_ T_default from_variant_T v σ1 = (throws e, σ2)))
  /\ (forall v e v', get_array v = (throws e, v') \/ get_object v = (throws e, v') -> v' = v)
  /\ (forall v a v', get_array v = (returns a, v') ->
        v' = v \/ (v = v_null /\ v' = v_array []))
  /\ (forall v o v', get_object v = (returns o, v') ->
        v' = v \/ (v = v_null /\ v' = v_object [])).
Proof.
  split; [|split; [|split; [|split; [|split; [|split]]]]].
  - intros var tmp σ Hty. split; by apply from_container_not_array.
  - intros vars tmp σ xs σ' Hc.
    unfold from_variant_vector, from_variant_unordered_set, from_variant_container.
    simpl. rewrite !(from_loop_returns _ _ _ _ _ _ _ _ Hc).
    by rewrite added_push_back.
  - intros vars1 v vars2 tmp σ xs σ1 e σ2 Hc Hv.
    unfold from_variant_vector, from_variant_unordered_set, from_variant_container.
    simpl. rewrite !(from_loop_throws _ _ _ _ _ _ _ _ _ _ _ _ Hc Hv).
    by rewrite added_push_back.
  - apply converts_or_throws.
  - intros [] e v' [H|H]; simpl in H; congruence.
  - intros [] arr v' H; simpl in H; try discriminate; injection H as <- <-; auto.
  - intros [] obj v' H; simpl in H; try discriminate; injection H as <- <-; auto.
Qed.

End SetFacts.

(** C3 as stated fails: converting the Array [[[5], null]] into a
    [std::vector<std::vector<int64_t>>] that holds [[[1]]] throws at the
    second element (Null is no Array for the inner [from_variant]) and leaves
    the vector holding [[[5]]]. *)
Lemma from_variant_vector_failure_counterexample :
  ~ vector_unchanged_on_failure [] from_variant_vec
      (v_array [v_array [v_int64 5]; v_null]) [[1]] tt.
Proof.
  intros H. specialize (H type_mismatch [[5]] tt eq_refl). discriminate H.
Qed.

(** Converting [[[5], null, []]] into a vector of vectors that holds [[[1]]]
    fails at the second element and leaves [[[5]]]; converting [42] fails and
    leaves [[[1]]]. *)
Lemma from_variant_container_failure_witness :
  from_variant_vec_vec (v_array [v_array [v_int64 5]; v_null; v_array []]) ([[1]], tt)
  = (throws type_mismatch, ([[5]], tt))
  /\ from_variant_vec_vec (v_int64 42) ([[1]], tt) = (throws type_mismatch, ([[1]], tt)).
Proof.
  destruct (from_variant_container_failure (Σ := unit) [] from_variant_vec cons)
    as (Hnot & _ & Hpart & _).
  split.
  - apply (Hpart [v_array [v_int64 5]] v_null [v_array []] [[1]] tt [[5]] tt type_mismatch tt).
    + econstructor; [vm_compute; reflexivity | constructor].
    + vm_compute. reflexivity.
  - apply Hnot. simpl. discriminate.
Defined.

(** C6 as stated fails: an unordered set whose one member is a pointer to an
    empty pointer becomes the Array [[null]], which converts back to the set
    whose one member is the empty pointer. *)
Lemma unordered_set_round_trip_counterexample :
  ~ unordered_set_round_trip None (variant_from to_variant_ptr_ptr) from_variant_ptr_ptr
      cons [Some 0%nat] store_empty_inner.
Proof.
  intros (vars & σ1 & back & σ2 & Hto & _ & Hfrom & _ & Hin).
  vm_compute in Hto. injection Hto as <- <-.
  vm_compute in Hfrom. injection Hfrom as <- _.
  specialize (Hin None). rewrite !list_elem_of_singleton in Hin.
  discriminate (Hin eq_refl).
Qed.

(** The unordered set {1,2,3}, held by the Array in the order 3, 1, 2,
    converts back to a set equal to {1,2,3}. *)
Lemma unordered_set_round_trip_exact_witness :
  exists back,
    from_variant_unordered_set 0 from_variant_i64 cons
      (v_array [v_int64 3; v_int64 1; v_int64 2]) ([], tt) = (returns tt, (back, tt))
    /\ unordered_set_eq back [1; 2; 3].
Proof.
  assert (Hplace : places_new_element (T := Z) cons) by (intros x l; reflexivity).
  assert (Hnd : NoDup [1; 2; 3]) by (apply (bool_decide_unpack _); vm_compute; exact I).
  assert (Hperm : [3; 1; 2] ≡ₚ [1; 2; 3]).
  { etrans; [apply Permutation_swap|]. apply Permutation_skip, Permutation_swap. }
  destruct (unordered_set_round_trip_exact 0 variant_i64 from_variant_i64 cons v_int64
              [1; 2; 3] Hplace Hnd (exact_on_i64 _)) as (_ & _ & _ & Hfrom & _).
  destruct (Hfrom [3; 1; 2] [] tt Hperm) as (back & [] & H & Heq & _).
  exists back. split; [exact H | exact Heq].
Defined.

(** ** Properties of the pointer and optional overloads *)

Section SharedPtrFacts.
Context {Σ T : Type}.
Variable T_default : T.
Variable to_variant_T : T -> M (variant * Σ) unit.
Variable from_variant_T : variant -> M (T * Σ) unit.

Local Abbreviation from_ptr := (from_variant_shared_ptr T_default from_variant_T).
Local Abbreviation to_ptr := (to_variant_shared_ptr to_variant_T).

Lemma from_variant_pointee_at var l pointee (heap : list T) σ :
  heap !! l = Some pointee ->
  from_variant_pointee from_variant_T var l (heap, σ)
  = let '(r, (pointee', σ')) := from_variant_T var (pointee, σ) in
    (r, (<[l:=pointee']> heap, σ')).
Proof. intros Hl. unfold from_variant_pointee. by rewrite Hl. Qed.

Lemma insert_fresh_cell (heap : list T) x y :
  <[length heap:=y]> (heap ++ [x]) = heap ++ [y].
Proof.
  replace (length heap) with (length heap + 0)%nat by lia.
  by rewrite insert_app_r.
Qed.

(** C1: [from_variant] with a Null source empties the pointer and leaves the
    heap alone. With another source and a pointer that owns the cell [l], it
    converts into that cell: the pointer still is [l], the heap has as many
    cells as before, and the cell [l] holds what [T]'s [from_variant] made of
    its former content. Only with another source and an empty pointer is a
    cell added, holding what [T]'s [from_variant] made of [T()], and the
    pointer is its address. [to_variant] of the empty pointer is Null, and of
    a pointer to the cell [l] it is what [T]'s [to_variant] makes of the
    content of [l]. *)
Theorem shared_ptr_conversion :
  (forall var vo (heap : list T) σ, is_null var = true ->
      from_ptr var (vo, (heap, σ)) = (returns tt, (None, (heap, σ))))
  /\ (forall var l pointee (heap : list T) σ,
        is_null var = false -> heap !! l = Some pointee ->
        exists r pointee' σ',
          from_variant_T var (pointee, σ) = (r, (pointee', σ'))
          /\ from_ptr var (Some l, (heap, σ)) = (r, (Some l, (<[l:=pointee']> heap, σ')))
          /\ length (<[l:=pointee']> heap) = length heap
          /\ <[l:=pointee']> heap !! l = Some pointee'
          /\ (forall l', l' <> l -> <[l:=pointee']> heap !! l' = heap !! l'))
  /\ (forall var (heap : list T) σ, is_null var = false ->
        exists r pointee' σ',
          from_variant_T var (T_default, σ) = (r, (pointee', σ'))
          /\ from_ptr var (None, (heap, σ))
             = (r, (Some (length heap), (heap ++ [pointee'], σ'))))
  /\ (forall vo (st : list T * Σ), to_ptr None (vo, st) = (returns tt, (v_null, st)))
  /\ (forall l pointee vo (heap : list T) σ, heap !! l = Some pointee ->
        exists r vo' σ',
          to_variant_T pointee (vo, σ) = (r, (vo', σ'))
          /\ to_ptr (Some l) (vo, (heap, σ)) = (r, (vo', (heap, σ')))).
Proof.
  split; [|split; [|split; [|split]]].
  - intros var vo heap σ Hnull. simpl. by rewrite Hnull.
  - intros var l pointee heap σ Hnull Hl.
    destruct (from_variant_T var (pointee, σ)) as [r [pointee' σ']] eqn:Hfv.
    exists r, pointee', σ'. split; [reflexivity|].
    split; [|split; [apply length_insert|split]].
    + simpl. rewrite Hnull. fold (from_variant_pointee from_variant_T var l (heap, σ)).
      rewrite (from_variant_pointee_at _ _ _ _ _ Hl), Hfv. reflexivity.
    + apply list_lookup_insert_eq. by eapply lookup_lt_Some.
    + intros l' Hne. by apply list_lookup_insert_ne.
  - intros var heap σ Hnull.
    destruct (from_variant_T var (T_default, σ)) as [r [pointee' σ']] eqn:Hfv.
    exists r, pointee', σ'. split; [reflexivity|].
    simpl. rewrite Hnull.
    fold (from_variant_pointee from_variant_T var (length heap) (heap ++ [T_default], σ)).
    rewrite (from_variant_pointee_at _ _ T_default) by apply list_lookup_middle, eq_refl.
    rewrite Hfv. by rewrite insert_fresh_cell.
  - intros vo [heap σ]. reflexivity.
  - intros l pointee vo heap σ Hl.
    destruct (to_variant_T pointee (vo, σ)) as [r [vo' σ']] eqn:Htv.
    exists r, vo', σ'. split; [reflexivity|].
    simpl. by rewrite Hl, Htv.
Qed.

End SharedPtrFacts.

(** Converting [[7]] into a pointer that owns the vector [[1]] at address 0
    leaves the pointer at address 0, where the vector now is [[7]]; converting
    it into an empty pointer takes the next address. *)
Lemma shared_ptr_conversion_witness :
  from_variant_ptr (v_array [v_int64 7]) (Some 0%nat, ([[1]], tt))
  = (returns tt, (Some 0%nat, ([[7]], tt)))
  /\ from_variant_ptr (v_array [v_int64 7]) (None, ([[1]], tt))
     = (returns tt, (Some 1%nat, ([[1]; [7]], tt)))
  /\ from_variant_ptr v_null (Some 0%nat, ([[1]], tt)) = (returns tt, (None, ([[1]], tt))).
Proof.
  destruct (shared_ptr_conversion (Σ := unit) [] to_variant_vec from_variant_vec)
    as (Hnull & Hown & Hempty & _).
  split; [|split].
  - destruct (Hown (v_array [v_int64 7]) 0%nat [1] [[1]] tt eq_refl eq_refl)
      as (r & pointee' & σ' & Hfv & Hres & _).
    vm_compute in Hfv. injection Hfv as <- <- <-. exact Hres.
  - destruct (Hempty (v_array [v_int64 7]) [[1]] tt eq_refl)
      as (r & pointee' & σ' & Hfv & Hres).
    vm_compute in Hfv. injection Hfv as <- <- <-. exact Hres.
  - apply Hnull. reflexivity.
Defined.

Section OptionalFacts.
Context {Σ T : Type}.
Variable T_default : T.
Variable variant_T : T -> M Σ variant.
Variable from_variant_T : variant -> M (T * Σ) unit.

(** [from_variant] into an optional: Null gives the absent optional; any
    other source gives the optional holding what [T]'s [from_variant] made
    of [T()]. *)
Lemma from_variant_optional_spec :
  (forall var vo σ, is_null var = true ->
      from_variant_optional T_default from_variant_T var (vo, σ) = (returns tt, (None, σ)))
  /\ (forall var vo σ, is_null var = false ->
        exists r x σ',
          from_variant_T var (T_default, σ) = (r, (x, σ'))
          /\ from_variant_optional T_default from_variant_T var (vo, σ) = (r, (Some x, σ'))).
Proof.
  split.
  - intros var vo σ Hnull. simpl. by rewrite Hnull.
  - intros var vo σ Hnull.
    destruct (from_variant_T var (T_default, σ)) as [r [x σ']] eqn:Hfv.
    exists r, x, σ'. split; [reflexivity|]. simpl. by rewrite Hnull, Hfv.
Qed.

(** The constructor from a present optional is [variant( x )], on storage
    that does not read as a String, an Array or an Object. *)
Lemma variant_from_optional_present uninitialised x σ :
  is_string uninitialised || is_array uninitialised || is_object uninitialised = false ->
  variant_from_optional variant_T uninitialised (Some x) σ = variant_T x σ.
Proof.
  intros Hkind. simpl. unfold bind, assign_over, ret. rewrite Hkind.
  by destruct (variant_T x σ) as [[v|e] σ'].
Qed.

(** The constructor from an absent optional is whatever the storage held. *)
Lemma variant_from_optional_absent uninitialised σ :
  variant_from_optional variant_T uninitialised None σ = (returns uninitialised, σ).
Proof. reflexivity. Qed.

End OptionalFacts.

(** C7: the constructor of a variant from an absent [optional<int64_t>] does
    not make the variant Null: it leaves the storage as it was, so that on
    storage that reads as the Int64 7 the result is the Int64 7. (The generic
    constructor, [variant_from], clears the storage first.) From a present
    optional the constructor gives [variant( x )] on storage that reads as
    Null or as a scalar, and fails on storage that reads as a String.
    [from_variant] of Null gives the absent optional, and [from_variant] of
    the Int64 5 the optional holding 5. *)
Theorem variant_from_optional_absent_not_null :
  (forall uninitialised,
      variant_from_optional variant_i64 uninitialised None tt = (returns uninitialised, tt))
  /\ variant_from_optional variant_i64 (v_int64 7) None tt = (returns (v_int64 7), tt)
  /\ is_null (v_int64 7) = false
  /\ (forall x, variant_from_optional variant_i64 v_null (Some x) tt = (returns (v_int64 x), tt))
  /\ (forall x, variant_from_optional variant_i64 (v_int64 7) (Some x) tt
                = (returns (v_int64 x), tt))
  /\ (forall x s, variant_from_optional variant_i64 (v_string s) (Some x) tt
                  = (throws invalid_pointer, tt))
  /\ (forall vo, from_variant_optional 0 from_variant_i64 v_null (vo, tt)
                 = (returns tt, (None, tt)))
  /\ (forall vo, from_variant_optional 0 from_variant_i64 (v_int64 5) (vo, tt)
                 = (returns tt, (Some 5, tt))).
Proof.
  repeat match goal with |- _ /\ _ => split end; try reflexivity.
Qed.

(** ** Properties of the storage *)

Module StorageFacts.
Import Storage.

Lemma destroy_null h : destroy null_storage h = (returns tt, h).
Proof. reflexivity. Qed.

Lemma destroy_owner v h p :
  owns_payload (_type v) = true -> cells h !! _data v = Some p ->
  destroy v h
  = (returns tt, {| cells := delete (_data v) (cells h); released := _data v :: released h |}).
Proof. intros Hown Hp. unfold destroy, release. by rewrite Hown, Hp. Qed.

Lemma destroy_well_formed v h :
  well_formed v h ->
  exists h', destroy v h = (returns tt, h')
             /\ (forall a, a <> _data v -> cells h' !! a = cells h !! a)
             /\ (owns_payload (_type v) = false -> h' = h).
Proof.
  intros Hwf. unfold destroy. destruct (owns_payload (_type v)) eqn:Hown.
  - destruct (Hwf Hown) as [p Hp]. unfold release. rewrite Hp.
    eexists. split; [reflexivity|]. split; [|discriminate].
    intros a Ha. simpl. by apply lookup_delete_ne.
  - exists h. split; [reflexivity|]. split; [reflexivity|done].
Qed.

(** C4: for a variant [v1] that holds a String, Array or Object payload,
    move construction hands tag and handle to the new variant without
    touching the heap (the payload stays in its cell: nothing is copied) and
    leaves [v1] Null; move assignment does the same after releasing what the
    destination held. Destroying both variants afterwards, in either order,
    succeeds and releases the payload once: its address is added once to the
    released addresses, and its cell is no longer live. *)
Theorem move_leaves_source_null (v1 : storage) (h : heap) (p : payload) :
  owns_payload (_type v1) = true ->
  cells h !! _data v1 = Some p ->
  (exists v2 v1',
      move_construct (v1, h) = (returns v2, (v1', h))
      /\ v2 = v1 /\ storage_is_null v1' = true
      /\ exists h',
          (let* _ := destroy v1' in destroy v2) h = (returns tt, h')
          /\ (let* _ := destroy v2 in destroy v1') h = (returns tt, h')
          /\ released h' = _data v1 :: released h
          /\ cells h' !! _data v1 = None)
  /\ (forall v2, well_formed v2 h ->
        (owns_payload (_type v2) = true -> _data v2 <> _data v1) ->
        exists h1,
          move_assign (v2, v1, h) = (returns tt, (v1, null_storage, h1))
          /\ storage_is_null null_storage = true
          /\ cells h1 !! _data v1 = Some p
          /\ exists h',
              (let* _ := destroy null_storage in destroy v1) h1 = (returns tt, h')
              /\ (let* _ := destroy v1 in destroy null_storage) h1 = (returns tt, h')
              /\ released h' = _data v1 :: released h1
              /\ cells h' !! _data v1 = None).
Proof.
  intros Hown Hp. split.
  - exists v1, null_storage. split; [reflexivity|]. split; [reflexivity|].
    split; [reflexivity|].
    eexists. unfold bind. rewrite destroy_null, (destroy_owner v1 h p Hown Hp).
    rewrite destroy_null.
    split; [reflexivity|]. split; [reflexivity|]. split; [reflexivity|].
    simpl. apply lookup_delete_eq.
  - intros v2 Hwf Hne.
    destruct (destroy_well_formed v2 h Hwf) as (h1 & Hd & Hother & Hinline).
    assert (Hp1 : cells h1 !! _data v1 = Some p).
    { destruct (owns_payload (_type v2)) eqn:Hown2.
      - rewrite Hother; [exact Hp|]. intros Heq. by apply (Hne eq_refl).
      - by rewrite (Hinline eq_refl). }
    exists h1. split; [unfold move_assign; by rewrite Hd|].
    split; [reflexivity|]. split; [exact Hp1|].
    eexists. unfold bind. rewrite destroy_null, (destroy_owner v1 h1 p Hown Hp1).
    rewrite destroy_null.
    split; [reflexivity|]. split; [reflexivity|]. split; [reflexivity|].
    simpl. apply lookup_delete_eq.
Qed.


(** Moving the String at address 16 and destroying both variants releases
    address 16, once. *)
Lemma move_leaves_source_null_witness :
  exists h',
    (let* _ := destroy null_storage in destroy string_at_16) heap_with_16 = (returns tt, h')
    /\ released h' = [16].
Proof.
  destruct (move_leaves_source_null string_at_16 heap_with_16 (string_payload "fc")
              eq_refl eq_refl) as [(v2 & v1' & Hmove & -> & _ & h' & _ & Hd & Hrel & _) _].
  injection Hmove as <-. exists h'. split; [exact Hd | exact Hrel].
Defined.

End StorageFacts.

(** ** Further properties of the time types *)

Module TimeArithmetic.
Import Time.

Lemma microseconds_ext (a b : microseconds) : _count a = _count b -> a = b.
Proof. destruct a, b. simpl. by intros ->. Qed.

Lemma time_point_ext (a b : time_point) :
  _count (elapsed a) = _count (elapsed b) -> a = b.
Proof. destruct a as [ea], b as [eb]. simpl. intros H. f_equal. by apply microseconds_ext. Qed.

(** X1: as long as the sums stay within [int64_t], [operator +] on
    [microseconds] adds the counts exactly, is commutative and associative,
    and has [microseconds()] as its neutral element. *)
Theorem microseconds_add_laws (l r c : microseconds) :
  int64_range (count l + count r) ->
  int64_range (count r + count c) ->
  int64_range (count l + count r + count c) ->
  count (microseconds_add l r) = count l + count r
  /\ microseconds_add l r = microseconds_add r l
  /\ microseconds_add (microseconds_add l r) c = microseconds_add l (microseconds_add r c)
  /\ microseconds_add (microseconds_add l r) microseconds_default = microseconds_add l r
  /\ microseconds_add microseconds_default (microseconds_add l r) = microseconds_add l r.
Proof.
  unfold count. intros Hlr Hrc Hlrc.
  assert (Hadd : _count (microseconds_add l r) = _count l + _count r)
    by (simpl; by apply to_int64_id).
  assert (Hadd' : _count (microseconds_add r c) = _count r + _count c)
    by (simpl; by apply to_int64_id).
  split; [exact Hadd|]. split; [|split; [|split]]; apply microseconds_ext.
  - simpl. f_equal. lia.
  - change (to_int64 (_count (microseconds_add l r) + _count c)
            = to_int64 (_count l + _count (microseconds_add r c))).
    rewrite Hadd, Hadd'. f_equal. lia.
  - change (to_int64 (_count (microseconds_add l r) + 0) = _count (microseconds_add l r)).
    rewrite Z.add_0_r. apply to_int64_id. by rewrite Hadd.
  - change (to_int64 (0 + _count (microseconds_add l r)) = _count (microseconds_add l r)).
    rewrite Z.add_0_l. apply to_int64_id. by rewrite Hadd.
Qed.

(** One second and a half, added to two seconds. *)
Lemma microseconds_add_laws_witness :
  count (microseconds_add (seconds 1) (milliseconds 500)) = 1500000
  /\ microseconds_add (microseconds_add (seconds 1) (milliseconds 500)) (seconds 2)
     = microseconds_add (seconds 1) (microseconds_add (milliseconds 500) (seconds 2)).
Proof.
  assert (Hr : forall z, - 2 ^ 40 <= z <= 2 ^ 40 -> int64_range z)
    by (unfold int64_range, int64_min, int64_max; lia).
  destruct (microseconds_add_laws (seconds 1) (milliseconds 500) (seconds 2))
    as (Hcount & _ & Hassoc & _); try (apply Hr; vm_compute; split; discriminate).
  split; [exact Hcount | exact Hassoc].
Defined.

(** X2: the six comparison operators of [time_point] describe one total
    order on the counts: [a < b] is [b > a], [<=] and [>=] are the negations
    of [>] and [<], [!=] is the negation of [==], exactly one of [<], [==],
    [>] holds, [<] is transitive, and [==] holds exactly for equal time
    points. Each operator agrees with the operator of the same name on
    [time_since_epoch()]. *)
Theorem time_point_comparisons (a b c : time_point) :
  lt a b = gt b a
  /\ le a b = negb (gt a b)
  /\ ge a b = negb (lt a b)
  /\ ne a b = negb (eq a b)
  /\ (lt a b = true /\ eq a b = false /\ gt a b = false
      \/ lt a b = false /\ eq a b = true /\ gt a b = false
      \/ lt a b = false /\ eq a b = false /\ gt a b = true)
  /\ (lt a b = true -> lt b c = true -> lt a c = true)
  /\ (eq a b = true <-> a = b)
  /\ (le a b = true -> le b a = true -> a = b)
  /\ lt a b = microseconds_lt (time_since_epoch a) (time_since_epoch b)
  /\ le a b = microseconds_le (time_since_epoch a) (time_since_epoch b)
  /\ gt a b = microseconds_gt (time_since_epoch a) (time_since_epoch b)
  /\ ge a b = microseconds_ge (time_since_epoch a) (time_since_epoch b)
  /\ eq a b = microseconds_eq (time_since_epoch a) (time_since_epoch b).
Proof.
  unfold lt, gt, le, ge, eq, ne, microseconds_lt, microseconds_le, microseconds_gt,
    microseconds_ge, microseconds_eq, time_since_epoch.
  set (x := _count (elapsed a)). set (y := _count (elapsed b)).
  set (z := _count (elapsed c)).
  rewrite !Z.gtb_ltb, !Z.geb_leb.
  repeat match goal with |- _ /\ _ => split end; try reflexivity.
  - destruct (Z.ltb_spec y x), (Z.leb_spec x y); simpl; try reflexivity; lia.
  - destruct (Z.ltb_spec x y), (Z.leb_spec y x); simpl; try reflexivity; lia.
  - destruct (Z.ltb_spec x y), (Z.eqb_spec x y), (Z.ltb_spec y x); try lia; tauto.
  - rewrite !Z.ltb_lt. lia.
  - rewrite Z.eqb_eq. split; [apply time_point_ext | by intros ->].
  - rewrite !Z.leb_le. intros H1 H2. apply time_point_ext. fold x y. lia.
Qed.

(** X3: when [t + d] does not overflow, [(t + d) - t] is [d]; and when
    [b - a] does not overflow, [a + (b - a)] is [b]. *)
Theorem time_point_add_sub (t : time_point) (d : microseconds) (a b : time_point) :
  int64_range (count d) ->
  int64_range (count (elapsed t) + count d) ->
  representable b ->
  int64_range (count (elapsed b) - count (elapsed a)) ->
  sub (add t d) t = d /\ add a (sub b a) = b.
Proof.
  unfold count, representable. intros Hd Htd Hb Hba. split.
  - apply microseconds_ext.
    change (to_int64 (to_int64 (_count (elapsed t) + _count d) - _count (elapsed t))
            = _count d).
    rewrite (to_int64_id _ Htd). rewrite <- (to_int64_id _ Hd) at 2. f_equal. lia.
  - apply time_point_ext.
    change (to_int64 (_count (elapsed a) + to_int64 (_count (elapsed b) - _count (elapsed a)))
            = _count (elapsed b)).
    rewrite (to_int64_id _ Hba). rewrite <- (to_int64_id _ Hb) at 2. f_equal. lia.
Qed.

(** Five seconds after the epoch, and back. *)
Lemma time_point_add_sub_witness :
  sub (add (time_point_ctor (microseconds_ctor 0)) (seconds 5))
      (time_point_ctor (microseconds_ctor 0)) = seconds 5
  /\ add (time_point_ctor (microseconds_ctor 7))
         (sub (time_point_ctor (microseconds_ctor 3)) (time_point_ctor (microseconds_ctor 7)))
     = time_point_ctor (microseconds_ctor 3).
Proof.
  assert (Hr : forall z, - 2 ^ 40 <= z <= 2 ^ 40 -> int64_range z)
    by (unfold int64_range, int64_min, int64_max; lia).
  apply (time_point_add_sub (time_point_ctor (microseconds_ctor 0)) (seconds 5)
           (time_point_ctor (microseconds_ctor 7)) (time_point_ctor (microseconds_ctor 3)));
    apply Hr; vm_compute; split; discriminate.
Defined.

(** X4: as long as [s * 1000000] stays within [int64_t], [seconds( s )]
    counts [s * 1000000] microseconds and equals [milliseconds( s * 1000 )];
    and [seconds( a ) + seconds( b )] is [seconds( a + b )] when that one
    does not overflow either. *)
Theorem seconds_milliseconds (s a b : Z) :
  int64_range (s * 1000000) ->
  int64_range (a * 1000000) -> int64_range (b * 1000000) ->
  int64_range ((a + b) * 1000000) ->
  count (seconds s) = s * 1000000
  /\ count (milliseconds s) * 1000 = s * 1000000
  /\ seconds s = milliseconds (s * 1000)
  /\ microseconds_add (seconds a) (seconds b) = seconds (a + b).
Proof.
  intros Hs Ha Hb Hab.
  assert (Hms : int64_range (s * 1000))
    by (revert Hs; unfold int64_range, int64_min, int64_max; lia).
  split; [simpl; by apply to_int64_id|].
  split; [simpl; rewrite (to_int64_id _ Hms); lia|].
  split; apply microseconds_ext; simpl.
  - f_equal. lia.
  - rewrite (to_int64_id _ Ha), (to_int64_id _ Hb). f_equal. lia.
Qed.

(** One second is a thousand milliseconds; one and two seconds are three. *)
Lemma seconds_milliseconds_witness :
  seconds 1 = milliseconds 1000
  /\ microseconds_add (seconds 1) (seconds 2) = seconds 3.
Proof.
  assert (Hr : forall z, - 2 ^ 40 <= z <= 2 ^ 40 -> int64_range z)
    by (unfold int64_range, int64_min, int64_max; lia).
  destruct (seconds_milliseconds 1 1 2) as (_ & _ & Hms & Hadd);
    try (apply Hr; vm_compute; split; discriminate).
  split; [exact Hms | exact Hadd].
Defined.

(** X5: when neither [a + d] nor [b + d] overflows, adding [d] keeps the
    order of [a] and [b]; and adding a positive [d] to [a] gives a later
    time point. *)
Theorem time_point_add_monotone (a b : time_point) (d : microseconds) :
  int64_range (count (elapsed a) + count d) ->
  int64_range (count (elapsed b) + count d) ->
  lt (add a d) (add b d) = lt a b
  /\ le (add a d) (add b d) = le a b
  /\ eq (add a d) (add b d) = eq a b
  /\ (0 < count d -> lt a (add a d) = true)
  /\ sub (add b d) (add a d) = microseconds_ctor (to_int64 (count (elapsed b) - count (elapsed a))).
Proof.
  unfold count, lt, le, eq. intros Ha Hb.
  assert (Ea : _count (elapsed (add a d)) = _count (elapsed a) + _count d)
    by (simpl; by apply to_int64_id).
  assert (Eb : _count (elapsed (add b d)) = _count (elapsed b) + _count d)
    by (simpl; by apply to_int64_id).
  rewrite Ea, Eb.
  split; [|split; [|split; [|split]]].
  - destruct (Z.ltb_spec (_count (elapsed a)) (_count (elapsed b)));
      [apply Z.ltb_lt | apply Z.ltb_ge]; lia.
  - destruct (Z.leb_spec (_count (elapsed a)) (_count (elapsed b)));
      [apply Z.leb_le | apply Z.leb_gt]; lia.
  - destruct (Z.eqb_spec (_count (elapsed a)) (_count (elapsed b)));
      [apply Z.eqb_eq | apply Z.eqb_neq]; lia.
  - intros Hd. apply Z.ltb_lt. lia.
  - apply microseconds_ext.
    change (to_int64 (_count (elapsed (add b d)) - _count (elapsed (add a d)))
            = to_int64 (_count (elapsed b) - _count (elapsed a))).
    rewrite Ea, Eb. f_equal. lia.
Qed.

(** The epoch and one second after it, both moved by five seconds. *)
Lemma time_point_add_monotone_witness :
  lt (add min (seconds 5)) (add (add min (seconds 1)) (seconds 5)) = lt min (add min (seconds 1))
  /\ lt min (add min (seconds 5)) = true.
Proof.
  assert (Hr : forall z, - 2 ^ 40 <= z <= 2 ^ 40 -> int64_range z)
    by (unfold int64_range, int64_min, int64_max; lia).
  destruct (time_point_add_monotone min (add min (seconds 1)) (seconds 5))
    as (Hlt & _ & _ & Hpos & _); try (apply Hr; vm_compute; split; discriminate).
  split; [exact Hlt | apply Hpos; reflexivity].
Defined.

End TimeArithmetic.

(** ** Further properties of the container overloads *)

Section ContainerRuns.
Context {Σ T C : Type}.
Variable T_default : T.
Variable variant_T : T -> M Σ variant.
Variable from_variant_T : variant -> M (T * Σ) unit.
Variable add : T -> C -> C.

Local Abbreviation as_T := (as_ T_default from_variant_T).
Local Abbreviation from_loop := (from_variant_loop T_default from_variant_T add).
Local Abbreviation to_container := (to_variant_container variant_T).
Local Abbreviation converts_T := (converts T_default from_variant_T).
Local Abbreviation encodes_T := (encodes variant_T).
Local Abbreviation added_T := (added add).

Lemma converts_app vars1 vars2 σ xs1 σ1 xs2 σ2 :
  converts_T vars1 σ xs1 σ1 -> converts_T vars2 σ1 xs2 σ2 ->
  converts_T (vars1 ++ vars2) σ (xs1 ++ xs2) σ2.
Proof.
  induction 1 as [|v vars σ x σa xs σb Hv _ IH]; intros H2; simpl.
  - exact H2.
  - econstructor; [exact Hv | by apply IH].
Qed.

Lemma encodes_app xs1 xs2 σ vs1 σ1 vs2 σ2 :
  encodes_T xs1 σ vs1 σ1 -> encodes_T xs2 σ1 vs2 σ2 ->
  encodes_T (xs1 ++ xs2) σ (vs1 ++ vs2) σ2.
Proof.
  induction 1 as [|x xs σ v σa vs σb Hv _ IH]; intros H2; simpl.
  - exact H2.
  - econstructor; [exact Hv | by apply IH].
Qed.

Lemma converts_lookup vars σ xs σ' i v :
  converts_T vars σ xs σ' -> vars !! i = Some v ->
  exists x σa σb, xs !! i = Some x /\ as_T v σa = (returns x, σb).
Proof.
  intros Hc. revert i. induction Hc as [|w vars σ x σ1 xs σ2 Hw _ IH]; intros i Hi.
  - discriminate.
  - destruct i as [|i]; simpl in *.
    + injection Hi as ->. eauto.
    + by apply IH.
Qed.

Lemma added_app xs ys c : added_T (xs ++ ys) c = added_T ys (added_T xs c).
Proof. unfold added. apply foldl_app. Qed.

(** A run of the loop of [from_variant] that returns converted every
    element. *)
Lemma from_loop_returns_inv vars : forall c σ c' σ',
  from_loop vars (c, σ) = (returns tt, (c', σ')) ->
  exists xs, converts_T vars σ xs σ' /\ c' = added_T xs c.
Proof.
  induction vars as [|v vars IH]; intros c σ c' σ' Hrun; simpl in Hrun.
  - injection Hrun as <- <-. exists []. split; [constructor | reflexivity].
  - destruct (as_T v σ) as [[x|e] σ1] eqn:Hv; [|discriminate].
    destruct (IH _ _ _ _ Hrun) as (xs & Hc & ->).
    exists (x :: xs). split; [by econstructor | reflexivity].
Qed.

(** Every run of the elements through [variant( x )] converts them all or
    stops at the first that throws. *)
Lemma encodes_or_throws xs σ :
  (exists vs σ', encodes_T xs σ vs σ')
  \/ (exists xs1 x xs2 vs σ1 e σ2,
        xs = xs1 ++ x :: xs2 /\ encodes_T xs1 σ vs σ1
        /\ variant_T x σ1 = (throws e, σ2)).
Proof.
  revert σ. induction xs as [|x xs IH]; intros σ.
  - left. exists [], σ. constructor.
  - destruct (variant_T x σ) as [[v|e] σ1] eqn:Hx.
    + destruct (IH σ1) as [(vs & σ' & Hc)|(xs1 & y & xs2 & vs & σa & e & σb & -> & Hc & Hy)].
      * left. exists (v :: vs), σ'. by econstructor.
      * right. exists (x :: xs1), y, xs2, (v :: vs), σa, e, σb.
        split; [reflexivity|]. split; [by econstructor | exact Hy].
    + right. exists [], x, xs, [], σ, e, σ1.
      split; [reflexivity|]. split; [constructor | exact Hx].
Qed.

(** X6: [to_variant] of a container assigns its destination all or nothing:
    either every [variant( x )] succeeded and the destination is the Array of
    these variants, as many as the container has elements, or one of them
    threw and the destination variant is what it was. *)
Theorem to_variant_container_all_or_nothing (xs : list T) (v : variant) (σ : Σ) :
  (exists vars σ',
      to_container xs (v, σ) = (returns tt, (v_array vars, σ'))
      /\ encodes_T xs σ vars σ' /\ length vars = length xs)
  \/ (exists e σ', to_container xs (v, σ) = (throws e, (v, σ'))).
Proof.
  destruct (encodes_or_throws xs σ)
    as [(vs & σ' & Henc)|(xs1 & x & xs2 & vs & σ1 & e & σ2 & -> & Henc & Hx)].
  - left. exists vs, σ'. split; [by apply to_container_encodes|].
    split; [exact Henc | by eapply encodes_length].
  - right. exists e, σ2. unfold to_variant_container.
    by rewrite (to_loop_throws variant_T xs1 x xs2 _ _ _ _ _ _ _ Henc Hx).
Qed.

End ContainerRuns.

Section VectorRuns.
Context {Σ T : Type}.
Variable T_default : T.
Variable variant_T : T -> M Σ variant.
Variable from_variant_T : variant -> M (T * Σ) unit.

Local Abbreviation as_T := (as_ T_default from_variant_T).
Local Abbreviation from_vector := (from_variant_vector T_default from_variant_T).
Local Abbreviation to_vector := (to_variant_vector variant_T).
Local Abbreviation converts_T := (converts T_default from_variant_T).
Local Abbreviation encodes_T := (encodes variant_T).

(** X7: when [from_variant] into a vector returns, the source was an Array,
    the vector has exactly one element per element of the Array, and its
    [i]-th element is what [as<T>()] returned for the [i]-th element of the
    Array. *)
Theorem from_variant_vector_returns (var : variant) (tmp xs : list T) (σ σ' : Σ) :
  from_vector var (tmp, σ) = (returns tt, (xs, σ')) ->
  exists vars,
    var = v_array vars
    /\ converts_T vars σ xs σ'
    /\ length xs = length vars
    /\ (forall i v, vars !! i = Some v ->
          exists x σa σb, xs !! i = Some x /\ as_T v σa = (returns x, σb)).
Proof.
  intros Hrun. destruct var as [| | | | | |vars|]; try discriminate Hrun.
  unfold from_variant_vector, from_variant_container in Hrun. simpl in Hrun.
  apply from_loop_returns_inv in Hrun as (ys & Hc & ->).
  rewrite added_push_back. simpl.
  exists vars. split; [reflexivity|]. split; [exact Hc|].
  split; [by eapply converts_length|].
  intros i v Hi. by eapply converts_lookup.
Qed.

(** X8: the two conversions of a vector go through concatenation: the
    Array of [xs ++ ys] is the Array of [xs] followed by that of [ys], and
    the vector of [vars1 ++ vars2] is the vector of [vars1] followed by that
    of [vars2], the stores being threaded from the first part to the
    second. *)
Theorem vector_conversions_append
    (xs ys : list T) (vs ws : variants) (vars1 vars2 : variants) (xs1 xs2 : list T)
    (σ σ1 σ2 : Σ) (ρ ρ1 ρ2 : Σ) :
  encodes_T xs σ vs σ1 -> encodes_T ys σ1 ws σ2 ->
  converts_T vars1 ρ xs1 ρ1 -> converts_T vars2 ρ1 xs2 ρ2 ->
  (forall v, to_vector (xs ++ ys) (v, σ) = (returns tt, (v_array (vs ++ ws), σ2)))
  /\ (forall tmp, from_vector (v_array (vars1 ++ vars2)) (tmp, ρ)
                  = (returns tt, (xs1 ++ xs2, ρ2))).
Proof.
  intros He1 He2 Hc1 Hc2. split.
  - intros v. apply to_container_encodes. by eapply encodes_app.
  - intros tmp. unfold from_variant_vector, from_variant_container. simpl.
    rewrite (from_loop_returns _ _ _ _ _ _ _ _
               (converts_app _ _ _ _ _ _ _ _ _ Hc1 Hc2)).
    by rewrite added_push_back.
Qed.

(** X9: exact conversions lift through [std::vector]: when the conversions
    of [T] are exact on the elements of every vector of [xss], the
    conversions of [std::vector<T>] (the generic constructor over
    [to_variant], and [from_variant]) are exact on [xss], a vector being
    encoded as the Array of its elements' encodings. *)
Theorem exact_on_vector (enc : T -> variant) (xss : list (list T)) :
  (forall xs, xs ∈ xss -> exact_on T_default variant_T from_variant_T enc xs) ->
  exact_on (Σ := Σ) [] (variant_from to_vector) from_vector
    (fun xs => v_array (enc <$> xs)) xss.
Proof.
  intros Hex xs Hxs. specialize (Hex xs Hxs). split; intros σ.
  - destruct (exact_on_encodes _ _ _ enc xs σ Hex) as [σ1 Henc].
    exists σ1. unfold variant_from, to_variant_vector.
    by rewrite (to_container_encodes _ _ _ _ _ variant_zeroed Henc).
  - destruct (exact_on_converts _ _ _ enc xs σ Hex) as [σ2 Hconv].
    exists σ2. unfold as_, from_variant_vector, from_variant_container. simpl.
    rewrite (from_loop_returns _ _ _ _ _ _ _ _ Hconv).
    by rewrite added_push_back.
Qed.

End VectorRuns.

(** The Array [[1, 2u, true]] converts to the vector [[1, 2, 1]]: three
    elements for three. *)
Lemma from_variant_vector_returns_witness :
  exists vars,
    v_array [v_int64 1; v_uint64 2; v_bool true] = v_array vars
    /\ length [1; 2; 1] = length vars.
Proof.
  destruct (from_variant_vector_returns 0 from_variant_i64
              (v_array [v_int64 1; v_uint64 2; v_bool true]) [9] [1; 2; 1] tt tt eq_refl)
    as (vars & Hvar & _ & Hlen & _).
  exists vars. split; [exact Hvar | exact Hlen].
Defined.

Lemma encodes_i64 (xs : list Z) : encodes variant_i64 xs tt (v_int64 <$> xs) tt.
Proof. induction xs as [|x xs IH]; simpl; econstructor; [reflexivity | exact IH]. Qed.

Lemma converts_i64 (xs : list Z) :
  converts 0 from_variant_i64 (v_int64 <$> xs) tt xs tt.
Proof. induction xs as [|x xs IH]; simpl; econstructor; [reflexivity | exact IH]. Qed.

(** [[1, 2] ++ [3]] in both directions. *)
Lemma vector_conversions_append_witness :
  to_variant_vec ([1; 2] ++ [3]) (v_null, tt)
  = (returns tt, (v_array ([v_int64 1; v_int64 2] ++ [v_int64 3]), tt))
  /\ from_variant_vec (v_array ([v_int64 1; v_int64 2] ++ [v_int64 3])) ([7], tt)
     = (returns tt, ([1; 2] ++ [3], tt)).
Proof.
  destruct (vector_conversions_append 0 variant_i64 from_variant_i64
              [1; 2] [3] [v_int64 1; v_int64 2] [v_int64 3]
              [v_int64 1; v_int64 2] [v_int64 3] [1; 2] [3] tt tt tt tt tt tt
              (encodes_i64 [1; 2]) (encodes_i64 [3])
              (converts_i64 [1; 2]) (converts_i64 [3])) as [Hto Hfrom].
  split; [apply Hto | apply Hfrom].
Defined.

(** The vector of vectors of vectors [[[[1, 2], []]]] goes to nested Arrays
    and back. *)
Lemma exact_on_vector_witness :
  as_ [] (from_variant_vector [] from_variant_vec)
    (v_array [v_array [v_int64 1; v_int64 2]; v_array []]) tt
  = (returns [[1; 2]; []], tt).
Proof.
  assert (H1 : exact_on [] (variant_from to_variant_vec) from_variant_vec
                 (fun xs => v_array (v_int64 <$> xs)) [[1; 2]; []]).
  { apply (exact_on_vector 0 variant_i64 from_variant_i64 v_int64).
    intros xs _. apply exact_on_i64. }
  pose proof (exact_on_vector [] (variant_from to_variant_vec) from_variant_vec
                (fun xs => v_array (v_int64 <$> xs)) [[[1; 2]; []]]) as H2.
  destruct (H2 (fun xss Hin =>
                  eq_rect _ (exact_on [] (variant_from to_variant_vec) from_variant_vec
                               (fun xs => v_array (v_int64 <$> xs)))
                    H1 _ (eq_sym (proj1 (list_elem_of_singleton _ _) Hin)))
              [[1; 2]; []]) as [_ Hfrom].
  - apply list_elem_of_singleton. reflexivity.
  - destruct (Hfrom tt) as [[] H]. exact H.
Defined.

Section SetRuns.
Context {Σ T : Type} `{EqDecision T}.
Variable T_default : T.
Variable from_variant_T : variant -> M (T * Σ) unit.
Variable place : T -> list T -> list T.

Local Abbreviation insert_T := (unordered_set_insert place).
Local Abbreviation from_set := (from_variant_unordered_set T_default from_variant_T place).
Local Abbreviation converts_T := (converts T_default from_variant_T).

Lemma insert_facts x (c : list T) :
  places_new_element place -> NoDup c ->
  NoDup (insert_T x c)
  /\ (forall y, y ∈ insert_T x c <-> y = x \/ y ∈ c)
  /\ (length c <= length (insert_T x c) <= S (length c))%nat.
Proof.
  intros Hplace Hnd. unfold unordered_set_insert.
  destruct (decide (x ∈ c)) as [Hin|Hnin].
  - split; [exact Hnd|]. split; [|lia].
    intros y. split; [by right | intros [->|Hy]; assumption].
  - split; [rewrite (Hplace x c); apply NoDup_cons; by split|].
    split; [intros y; by rewrite (Hplace x c), elem_of_cons|].
    rewrite (Hplace x c). simpl. lia.
Qed.

Lemma added_insert_facts xs : forall c,
  places_new_element place -> NoDup c ->
  NoDup (added insert_T xs c)
  /\ (forall y, y ∈ added insert_T xs c <-> y ∈ c \/ y ∈ xs)
  /\ (length c <= length (added insert_T xs c) <= length c + length xs)%nat.
Proof.
  induction xs as [|x xs IH]; intros c Hplace Hnd; simpl.
  - split; [exact Hnd|]. split; [|lia].
    intros y. rewrite elem_of_nil. tauto.
  - destruct (insert_facts x c Hplace Hnd) as (Hnd1 & Hin1 & Hlen1).
    destruct (IH (insert_T x c) Hplace Hnd1) as (Hnd2 & Hin2 & Hlen2).
    split; [exact Hnd2|]. split; [|lia].
    intros y. rewrite Hin2, Hin1, elem_of_cons. tauto.
Qed.

(** X10: when [from_variant] into an unordered set returns, the source was
    an Array, the set holds no element twice, its members are exactly the
    values [as<T>()] returned for the elements of the Array, and it has at
    most as many members as the Array has elements: equal values collapse. *)
Theorem from_variant_unordered_set_returns (var : variant) (vo s : list T) (σ σ' : Σ) :
  places_new_element place ->
  from_set var (vo, σ) = (returns tt, (s, σ')) ->
  exists vars xs,
    var = v_array vars
    /\ converts_T vars σ xs σ'
    /\ NoDup s
    /\ (forall x, x ∈ s <-> x ∈ xs)
    /\ (length s <= length vars)%nat.
Proof.
  intros Hplace Hrun. destruct var as [| | | | | |vars|]; try discriminate Hrun.
  unfold from_variant_unordered_set, from_variant_container in Hrun. simpl in Hrun.
  apply from_loop_returns_inv in Hrun as (xs & Hc & ->).
  destruct (added_insert_facts xs [] Hplace (NoDup_nil_2 (A := T))) as (Hnd & Hin & Hlen).
  exists vars, xs. split; [reflexivity|]. split; [exact Hc|]. split; [exact Hnd|].
  split.
  - intros x. rewrite Hin, elem_of_nil. tauto.
  - rewrite <- (converts_length _ _ _ _ _ _ Hc). simpl in Hlen. lia.
Qed.

End SetRuns.

(** The Array [[1, 2, 1, 3, 2]] converts to a set of three members. *)
Lemma from_variant_unordered_set_returns_witness :
  from_variant_unordered_set 0 from_variant_i64 cons
    (v_array [v_int64 1; v_int64 2; v_int64 1; v_int64 3; v_int64 2]) ([], tt)
  = (returns tt, ([3; 2; 1], tt))
  /\ NoDup [3; 2; 1] /\ (length [3; 2; 1] <= 5)%nat.
Proof.
  assert (Hrun : from_variant_unordered_set 0 from_variant_i64 cons
                   (v_array [v_int64 1; v_int64 2; v_int64 1; v_int64 3; v_int64 2])
                   ([], tt) = (returns tt, ([3; 2; 1], tt)))
    by (vm_compute; reflexivity).
  destruct (from_variant_unordered_set_returns 0 from_variant_i64 cons
              (v_array [v_int64 1; v_int64 2; v_int64 1; v_int64 3; v_int64 2])
              [] [3; 2; 1] tt tt (fun x l => reflexivity (x :: l)) Hrun)
    as (vars & xs & Hvar & _ & Hnd & _ & Hlen).
  injection Hvar as <-. split; [exact Hrun|]. split; [exact Hnd | exact Hlen].
Defined.

(** ** Further properties of the pointer and optional overloads *)

Section PointerRuns.
Context {Σ T : Type}.
Variable T_default : T.
Variable from_variant_T : variant -> M (T * Σ) unit.

Local Abbreviation from_ptr := (from_variant_shared_ptr T_default from_variant_T).
Local Abbreviation from_opt := (from_variant_optional T_default from_variant_T).
Local Abbreviation as_T := (as_ T_default from_variant_T).
Local Abbreviation as_ptr := (as_ (Σ := list T * Σ) None from_ptr).
Local Abbreviation as_opt := (as_ (Σ := Σ) None from_opt).

Lemma from_ptr_empty var (heap : list T) σ :
  is_null var = false ->
  from_ptr var (None, (heap, σ))
  = let '(r, (pointee', σ')) := from_variant_T var (T_default, σ) in
    (r, (Some (length heap), (heap ++ [pointee'], σ'))).
Proof.
  intros Hnull. simpl. rewrite Hnull.
  fold (from_variant_pointee from_variant_T var (length heap) (heap ++ [T_default], σ)).
  rewrite (from_variant_pointee_at _ _ _ T_default) by apply list_lookup_middle, eq_refl.
  destruct (from_variant_T var (T_default, σ)) as [r [pointee' σ']].
  by rewrite insert_fresh_cell.
Qed.

(** X11: [as<std::shared_ptr<T>>()] of Null is the empty pointer and leaves
    the heap alone. Of any other variant it takes a cell of its own: the
    pointer returned is an address no cell had before, the cell holds what
    [T]'s [from_variant] made of [T()], and every cell there was is still
    there with its content; it fails exactly when [T]'s [from_variant]
    does. *)
Theorem as_shared_ptr_takes_new_cell (var : variant) (heap : list T) (σ : Σ) :
  (is_null var = true -> as_ptr var (heap, σ) = (returns None, (heap, σ)))
  /\ (is_null var = false ->
        exists r pointee' σ',
          from_variant_T var (T_default, σ) = (r, (pointee', σ'))
          /\ as_ptr var (heap, σ)
             = (match r with
                | returns _ => returns (Some (length heap))
                | throws e => throws e
                end, (heap ++ [pointee'], σ'))
          /\ heap !! length heap = None
          /\ (heap ++ [pointee']) !! length heap = Some pointee'
          /\ (forall l x, heap !! l = Some x -> (heap ++ [pointee']) !! l = Some x)).
Proof.
  split; intros Hnull.
  - unfold as_. simpl. by rewrite Hnull.
  - destruct (from_variant_T var (T_default, σ)) as [r [pointee' σ']] eqn:Hfv.
    exists r, pointee', σ'. split; [reflexivity|].
    split; [|split; [|split]].
    + unfold as_. rewrite (from_ptr_empty _ _ _ Hnull), Hfv. reflexivity.
    + by apply lookup_ge_None_2.
    + by apply list_lookup_middle.
    + intros l x Hl. by apply lookup_app_l_Some.
Qed.

(** X12: a failure of [T]'s [from_variant] is not undone: [from_variant]
    into an optional then leaves the optional engaged, and [from_variant]
    into an empty pointer leaves the pointer owning a new cell, each holding
    what the failed conversion left of [T()]; [from_variant] into a pointer
    that owns a cell leaves in the cell what the failed conversion left of
    its content. *)
Theorem failed_conversion_is_kept
    (var : variant) (vo : option T) (heap : list T) (l : nat) (pointee : T)
    (σ σ1 σ2 : Σ) (e1 e2 : exception) (left1 left2 : T) :
  is_null var = false ->
  from_variant_T var (T_default, σ) = (throws e1, (left1, σ1)) ->
  heap !! l = Some pointee ->
  from_variant_T var (pointee, σ) = (throws e2, (left2, σ2)) ->
  from_opt var (vo, σ) = (throws e1, (Some left1, σ1))
  /\ from_ptr var (None, (heap, σ))
     = (throws e1, (Some (length heap), (heap ++ [left1], σ1)))
  /\ from_ptr var (Some l, (heap, σ)) = (throws e2, (Some l, (<[l:=left2]> heap, σ2))).
Proof.
  intros Hnull Hfv1 Hl Hfv2. split; [|split].
  - simpl. by rewrite Hnull, Hfv1.
  - by rewrite (from_ptr_empty _ _ _ Hnull), Hfv1.
  - simpl. rewrite Hnull.
    fold (from_variant_pointee from_variant_T var l (heap, σ)).
    by rewrite (from_variant_pointee_at _ _ _ _ _ _ Hl), Hfv2.
Qed.

(** X13: [as<optional<T>>()] of Null is the absent optional; of any other
    variant it is the optional holding [as<T>()] of that variant, and it
    fails exactly when [as<T>()] fails, with the same exception and store. *)
Theorem as_optional_wraps_as (var : variant) (σ : Σ) :
  as_opt var σ
  = if is_null var then (returns None, σ)
    else match as_T var σ with
         | (returns x, σ') => (returns (Some x), σ')
         | (throws e, σ') => (throws e, σ')
         end.
Proof.
  unfold as_, from_variant_optional. destruct (is_null var); [reflexivity|].
  by destruct (from_variant_T var (T_default, σ)) as [[[]|e] [x σ']].
Qed.

End PointerRuns.

(** [as<shared_ptr<vector<int64_t>>>()] of [[7]], with one vector already on
    the heap, returns address 1. *)
Lemma as_shared_ptr_takes_new_cell_witness :
  as_ (Σ := store_ptr) None from_variant_ptr (v_array [v_int64 7]) ([[1]], tt)
  = (returns (Some 1%nat), ([[1]; [7]], tt))
  /\ as_ (Σ := store_ptr) None from_variant_ptr v_null ([[1]], tt)
     = (returns None, ([[1]], tt)).
Proof.
  split.
  - destruct (as_shared_ptr_takes_new_cell [] from_variant_vec (v_array [v_int64 7]) [[1]] tt)
      as [_ Hnew].
    destruct (Hnew eq_refl) as (r & pointee' & σ' & Hfv & Hres & _).
    vm_compute in Hfv. injection Hfv as <- <- <-. exact Hres.
  - apply (as_shared_ptr_takes_new_cell [] from_variant_vec v_null [[1]] tt). reflexivity.
Defined.

(** Converting [[[5], null]] fails at the second element: an optional vector
    of vectors is left holding [[[5]]], an empty pointer is left owning a new
    cell with [[[5]]], and the cell of an owning pointer is left with
    [[[5]]]. *)
Lemma failed_conversion_is_kept_witness :
  from_variant_optional [] from_variant_vec_vec
    (v_array [v_array [v_int64 5]; v_null]) (None, tt)
  = (throws type_mismatch, (Some [[5]], tt))
  /\ from_variant_shared_ptr [] from_variant_vec_vec
       (v_array [v_array [v_int64 5]; v_null]) (None, ([[[1]]], tt))
     = (throws type_mismatch, (Some 1%nat, ([[[1]]; [[5]]], tt)))
  /\ from_variant_shared_ptr [] from_variant_vec_vec
       (v_array [v_array [v_int64 5]; v_null]) (Some 0%nat, ([[[1]]], tt))
     = (throws type_mismatch, (Some 0%nat, ([[[5]]], tt))).
Proof.
  apply (failed_conversion_is_kept [] from_variant_vec_vec
           (v_array [v_array [v_int64 5]; v_null]) None [[[1]]] 0%nat [[1]]
           tt tt tt type_mismatch type_mismatch [[5]] [[5]]);
    vm_compute; reflexivity.
Defined.

Section PointerRoundTrip.
Context {Σ T : Type}.
Variable T_default : T.
Variable to_variant_T : T -> M (variant * Σ) unit.
Variable from_variant_T : variant -> M (T * Σ) unit.

Local Abbreviation to_ptr := (to_variant_shared_ptr to_variant_T).
Local Abbreviation from_ptr := (from_variant_shared_ptr T_default from_variant_T).
Local Abbreviation as_ptr := (as_ (Σ := list T * Σ) None from_ptr).

Lemma variant_from_returns x σ v σ' :
  variant_from to_variant_T x σ = (returns v, σ') ->
  to_variant_T x (variant_zeroed, σ) = (returns tt, (v, σ')).
Proof.
  unfold variant_from.
  destruct (to_variant_T x (variant_zeroed, σ)) as [[[]|e] [this σ1]]; [|discriminate].
  by intros [= -> ->].
Qed.

Lemma as_returns var σ x σ' :
  as_ T_default from_variant_T var σ = (returns x, σ') ->
  from_variant_T var (T_default, σ) = (returns tt, (x, σ')).
Proof.
  unfold as_.
  destruct (from_variant_T var (T_default, σ)) as [[[]|e] [tmp σ1]]; [|discriminate].
  by intros [= -> ->].
Qed.

(** X14: the round trip of an owning pointer copies the pointee. When the
    conversions of [T] are exact on the pointee [x] of the cell [l], and [x]
    is not encoded as Null, the variant of the pointer is the encoding of
    [x], and [as<std::shared_ptr<T>>()] of it is a pointer to another cell,
    which holds [x]; the cell [l] is as it was. *)
Theorem shared_ptr_round_trip_copies
    (enc : T -> variant) (l : nat) (x : T) (heap : list T) (σ : Σ) :
  heap !! l = Some x ->
  exact_on T_default (variant_from to_variant_T) from_variant_T enc [x] ->
  is_null (enc x) = false ->
  exists σ1 σ2,
    variant_from to_ptr (Some l) (heap, σ) = (returns (enc x), (heap, σ1))
    /\ as_ptr (enc x) (heap, σ1) = (returns (Some (length heap)), (heap ++ [x], σ2))
    /\ length heap <> l
    /\ (heap ++ [x]) !! length heap = Some x
    /\ (heap ++ [x]) !! l = Some x.
Proof.
  intros Hl Hex Hnull.
  destruct (Hex x) as [Hto Hfrom]; [by apply list_elem_of_singleton|].
  destruct (Hto σ) as [σ1 Hv]. apply variant_from_returns in Hv.
  destruct (Hfrom σ1) as [σ2 Ha]. apply as_returns in Ha.
  exists σ1, σ2. split; [|split; [|split; [|split]]].
  - unfold variant_from. simpl. by rewrite Hl, Hv.
  - unfold as_. simpl. rewrite Hnull.
    fold (from_variant_pointee from_variant_T (enc x) (length heap)
            (heap ++ [T_default], σ1)).
    rewrite (from_variant_pointee_at _ _ _ T_default) by apply list_lookup_middle, eq_refl.
    rewrite Ha. by rewrite insert_fresh_cell.
  - apply lookup_lt_Some in Hl. lia.
  - by apply list_lookup_middle.
  - by apply lookup_app_l_Some.
Qed.

End PointerRoundTrip.

Lemma exact_on_vec (xss : list (list Z)) :
  exact_on [] (variant_from to_variant_vec) from_variant_vec
    (fun xs => v_array (v_int64 <$> xs)) xss.
Proof.
  intros xs _. split; intros [].
  - destruct (exact_on_encodes 0 variant_i64 from_variant_i64 v_int64 xs tt (exact_on_i64 xs))
      as [[] Henc].
    exists tt. unfold variant_from, to_variant_vec, to_variant_vector.
    by rewrite (to_container_encodes _ _ _ _ _ variant_zeroed Henc).
  - exists tt. unfold as_, from_variant_vec, from_variant_vector, from_variant_container.
    simpl. rewrite (from_loop_returns _ _ _ _ _ _ _ _ (converts_i64 xs)).
    by rewrite added_push_back.
Qed.

(** The pointer to the vector [[4]] at address 0 comes back as a pointer to
    address 1, where another [[4]] is. *)
Lemma shared_ptr_round_trip_copies_witness :
  variant_from to_variant_ptr (Some 0%nat) ([[4]], tt) = (returns (v_array [v_int64 4]), ([[4]], tt))
  /\ as_ (Σ := store_ptr) None from_variant_ptr (v_array [v_int64 4]) ([[4]], tt)
     = (returns (Some 1%nat), ([[4]; [4]], tt)).
Proof.
  destruct (shared_ptr_round_trip_copies [] to_variant_vec from_variant_vec
              (fun xs => v_array (v_int64 <$> xs)) 0%nat [4] [[4]] tt
              eq_refl (exact_on_vec _) eq_refl)
    as ([] & [] & Hto & Hfrom & _).
  split; [exact Hto | exact Hfrom].
Defined.
